(** * Portfolio accounting, valuation, metrics guards and the data cache

    A shallow embedding of [src/backtester.py] (class [Backtester]:
    [__init__], [execute_trade], [calculate_portfolio_value], the trading
    loop of [run_backtest], the ratio guards and the drawdown block of
    [_update_performance_metrics], the realized-gains total and the day
    statistics of [analyze_performance]), of [src/data/cache.py] (class
    [Cache]: [_merge_data], the five getters and the five setters), of
    [create_portfolio] in [app/backend/services/portfolio.py] and of the
    retry loop [_make_api_request] in [src/tools/api.py].

    Numbers.  Python [int] is [Z].  Python [float] is idealised as an exact
    rational, the canonical rationals [Qc] of the standard library, so that
    equality of amounts is Leibniz equality; rounding, overflow, [inf] and
    [nan] operands are outside the model.  The two float results the metrics
    code builds on purpose, [float("inf")] and a quotient by a standard
    deviation, have constructors of their own in [metric], and the infinite
    and [nan] returns of a day after a zero value have theirs in
    [daily_return].

    Dictionaries are finite maps ([gmap]) keyed by strings; indexing a
    missing key raises [KeyError], which is the [Raised] outcome below. *)

From Stdlib Require Import QArith Qcanon Qround Lqa.
From stdpp Require Import numbers gmap strings list fin_maps.

Local Open Scope string_scope.
Local Open Scope Qc_scope.

(** ** Python primitives *)

(** [int(x)] on a float: truncation toward zero. *)
Definition int (x : Qc) : Z := Z.quot (Qnum (this x)) (Zpos (Qden (this x))).

(** A call either returns a value or raises [KeyError] on the key named. *)
Inductive outcome (A : Type) : Type :=
| Returned (a : A)
| Raised (key : string).
Arguments Returned {A} a.
Arguments Raised {A} key.

#[global] Instance outcome_ret : MRet outcome := λ A a, Returned a.
#[global] Instance outcome_bind : MBind outcome := λ A B f m,
  match m with
  | Returned a => f a
  | Raised k => Raised k
  end.

(** [d[key]] for a dictionary [d]. *)
Definition getitem {V : Type} (d : gmap string V) (key : string) : outcome V :=
  match d !! key with
  | Some v => Returned v
  | None => Raised key
  end.

(** ** The portfolio of [Backtester.__init__] *)

(** One entry of [portfolio["positions"]]. *)
Record Position : Type := mkPosition {
  long : Z;
  short : Z;
  long_cost_basis : Qc;
  short_cost_basis : Qc;
  short_margin_used : Qc
}.

(** One entry of [portfolio["realized_gains"]]: the keys ["long"] and
    ["short"] of that dictionary. *)
Record Gains : Type := mkGains {
  gains_long : Qc;
  gains_short : Qc
}.

Record Portfolio : Type := mkPortfolio {
  cash : Qc;
  margin_used : Qc;
  margin_requirement : Qc;
  positions : gmap string Position;
  realized_gains : gmap string Gains
}.

(** The part of a [Backtester] object the accounting code reads. *)
Record Backtester : Type := mkBacktester {
  tickers : list string;
  portfolio : Portfolio
}.

Definition zero_position : Position := mkPosition 0 0 0 0 0.
Definition zero_gains : Gains := mkGains 0 0.

(** The dictionary comprehension [{ticker: v for ticker in tickers}]. *)
Definition dict_of_tickers {V : Type} (v : V) (tickers : list string) : gmap string V :=
  foldr (λ ticker d, <[ticker := v]> d) ∅ tickers.

Definition init_portfolio (tickers : list string)
    (initial_capital initial_margin_requirement : Qc) : Portfolio :=
  {| cash := initial_capital;
     margin_used := 0;
     margin_requirement := initial_margin_requirement;
     positions := dict_of_tickers zero_position tickers;
     realized_gains := dict_of_tickers zero_gains tickers |}.

Definition init (tickers : list string)
    (initial_capital initial_margin_requirement : Qc) : Backtester :=
  {| tickers := tickers;
     portfolio := init_portfolio tickers initial_capital initial_margin_requirement |}.

(** ** In-place updates of the dictionaries *)

Definition set_cash (v : Qc) (pf : Portfolio) : Portfolio :=
  mkPortfolio v (margin_used pf) (margin_requirement pf) (positions pf) (realized_gains pf).
Definition set_margin_used (v : Qc) (pf : Portfolio) : Portfolio :=
  mkPortfolio (cash pf) v (margin_requirement pf) (positions pf) (realized_gains pf).
Definition set_position (ticker : string) (p : Position) (pf : Portfolio) : Portfolio :=
  mkPortfolio (cash pf) (margin_used pf) (margin_requirement pf)
    (<[ticker := p]> (positions pf)) (realized_gains pf).
Definition set_gains (ticker : string) (g : Gains) (pf : Portfolio) : Portfolio :=
  mkPortfolio (cash pf) (margin_used pf) (margin_requirement pf)
    (positions pf) (<[ticker := g]> (realized_gains pf)).

Definition set_long (v : Z) (p : Position) : Position :=
  mkPosition v (short p) (long_cost_basis p) (short_cost_basis p) (short_margin_used p).
Definition set_short (v : Z) (p : Position) : Position :=
  mkPosition (long p) v (long_cost_basis p) (short_cost_basis p) (short_margin_used p).
Definition set_long_cost_basis (v : Qc) (p : Position) : Position :=
  mkPosition (long p) (short p) v (short_cost_basis p) (short_margin_used p).
Definition set_short_cost_basis (v : Qc) (p : Position) : Position :=
  mkPosition (long p) (short p) (long_cost_basis p) v (short_margin_used p).
Definition set_short_margin_used (v : Qc) (p : Position) : Position :=
  mkPosition (long p) (short p) (long_cost_basis p) (short_cost_basis p) v.

(** ** [Backtester.execute_trade] *)

(** The block both arms of the buy branch run on a fill of [quantity] shares
    costing [cost]: the weighted-average basis, then [long += quantity] and
    [cash -= cost]. *)
Definition fill_buy (pf : Portfolio) (ticker : string) (position : Position)
    (quantity : Z) (cost : Qc) : Portfolio :=
  let old_shares := long position in
  let old_cost_basis := long_cost_basis position in
  let total_shares := (old_shares + quantity)%Z in
  let position :=
    if decide (0 < total_shares)%Z then
      let total_old_cost := old_cost_basis * Qc_of_Z old_shares in
      let total_new_cost := cost in
      set_long_cost_basis ((total_old_cost + total_new_cost) / Qc_of_Z total_shares) position
    else position in
  let position := set_long (long position + quantity) position in
  set_cash (cash pf - cost) (set_position ticker position pf).

(** The block both arms of the short branch run on a fill of [quantity]
    shares with the given [proceeds] and [margin_required]. *)
Definition fill_short (pf : Portfolio) (ticker : string) (position : Position)
    (quantity : Z) (current_price proceeds margin_required : Qc) : Portfolio :=
  let old_short_shares := short position in
  let old_cost_basis := short_cost_basis position in
  let total_shares := (old_short_shares + quantity)%Z in
  let position :=
    if decide (0 < total_shares)%Z then
      let total_old_cost := old_cost_basis * Qc_of_Z old_short_shares in
      let total_new_cost := current_price * Qc_of_Z quantity in
      set_short_cost_basis ((total_old_cost + total_new_cost) / Qc_of_Z total_shares) position
    else position in
  let position := set_short (short position + quantity) position in
  let position := set_short_margin_used (short_margin_used position + margin_required) position in
  let pf := set_position ticker position pf in
  let pf := set_margin_used (margin_used pf + margin_required) pf in
  let pf := set_cash (cash pf + proceeds) pf in
  set_cash (cash pf - margin_required) pf.

Definition buy (pf : Portfolio) (ticker : string) (position : Position)
    (quantity : Z) (current_price : Qc) : Portfolio * Z :=
  let cost := Qc_of_Z quantity * current_price in
  if decide (cost ≤ cash pf) then
    (fill_buy pf ticker position quantity cost, quantity)
  else
    let max_quantity := int (cash pf / current_price) in
    if decide (0 < max_quantity)%Z then
      let cost := Qc_of_Z max_quantity * current_price in
      (fill_buy pf ticker position max_quantity cost, max_quantity)
    else (pf, 0%Z).

Definition sell (pf : Portfolio) (ticker : string) (position : Position)
    (quantity : Z) (current_price : Qc) : outcome (Portfolio * Z) :=
  let quantity := Z.min quantity (long position) in
  if decide (0 < quantity)%Z then
    let avg_cost_per_share :=
      if decide (0 < long position)%Z then long_cost_basis position else 0 in
    let realized_gain := (current_price - avg_cost_per_share) * Qc_of_Z quantity in
    g ← getitem (realized_gains pf) ticker;
    let pf := set_gains ticker (mkGains (gains_long g + realized_gain) (gains_short g)) pf in
    let position := set_long (long position - quantity) position in
    let pf := set_cash (cash pf + Qc_of_Z quantity * current_price) (set_position ticker position pf) in
    let position :=
      if decide (long position = 0%Z) then set_long_cost_basis 0 position else position in
    Returned (set_position ticker position pf, quantity)
  else Returned (pf, 0%Z).

Definition short_sell (pf : Portfolio) (ticker : string) (position : Position)
    (quantity : Z) (current_price : Qc) : Portfolio * Z :=
  let proceeds := current_price * Qc_of_Z quantity in
  let margin_required := proceeds * margin_requirement pf in
  if decide (margin_required ≤ cash pf) then
    (fill_short pf ticker position quantity current_price proceeds margin_required, quantity)
  else
    let margin_ratio := margin_requirement pf in
    let max_quantity :=
      if decide (0 < margin_ratio) then int (cash pf / (current_price * margin_ratio))
      else 0%Z in
    if decide (0 < max_quantity)%Z then
      let proceeds := current_price * Qc_of_Z max_quantity in
      let margin_required := proceeds * margin_ratio in
      (fill_short pf ticker position max_quantity current_price proceeds margin_required,
       max_quantity)
    else (pf, 0%Z).

(** [margin_to_release] of the cover branch, from the pre-trade position. *)
Definition margin_to_release (position : Position) (quantity : Z) : Qc :=
  let portion_covered :=
    if decide (0 < short position)%Z then Qc_of_Z quantity / Qc_of_Z (short position)
    else 1 in
  portion_covered * short_margin_used position.

Definition cover (pf : Portfolio) (ticker : string) (position : Position)
    (quantity : Z) (current_price : Qc) : outcome (Portfolio * Z) :=
  let quantity := Z.min quantity (short position) in
  if decide (0 < quantity)%Z then
    let cover_cost := Qc_of_Z quantity * current_price in
    let avg_short_price :=
      if decide (0 < short position)%Z then short_cost_basis position else 0 in
    let realized_gain := (avg_short_price - current_price) * Qc_of_Z quantity in
    g ← getitem (realized_gains pf) ticker;
    let pf := set_gains ticker (mkGains (gains_long g) (gains_short g + realized_gain)) pf in
    let release := margin_to_release position quantity in
    let position := set_short (short position - quantity) position in
    let position := set_short_margin_used (short_margin_used position - release) position in
    let pf := set_margin_used (margin_used pf - release) pf in
    let pf := set_cash (cash pf + release) pf in
    let pf := set_cash (cash pf - cover_cost) pf in
    let position :=
      if decide (short position = 0%Z) then
        set_short_margin_used 0 (set_short_cost_basis 0 position)
      else position in
    Returned (set_position ticker position pf, quantity)
  else Returned (pf, 0%Z).

(** The method itself: the portfolio after the call and the shares filled,
    or the [KeyError] the call ends with. *)
Definition execute_trade (pf : Portfolio) (ticker action : string)
    (quantity current_price : Qc) : outcome (Portfolio * Z) :=
  if decide (quantity ≤ 0) then Returned (pf, 0%Z) else
  let quantity := int quantity in
  position ← getitem (positions pf) ticker;
  if decide (action = "buy") then Returned (buy pf ticker position quantity current_price)
  else if decide (action = "sell") then sell pf ticker position quantity current_price
  else if decide (action = "short") then
    Returned (short_sell pf ticker position quantity current_price)
  else if decide (action = "cover") then cover pf ticker position quantity current_price
  else Returned (pf, 0%Z).

(** ** [Backtester.calculate_portfolio_value] *)

(** The body of [for ticker in self.tickers], threaded through the
    running [total_value]. *)
Fixpoint value_loop (pf : Portfolio) (current_prices : gmap string Qc)
    (tickers : list string) (total_value : Qc) : outcome Qc :=
  match tickers with
  | [] => Returned total_value
  | ticker :: rest =>
      position ← getitem (positions pf) ticker;
      price ← getitem current_prices ticker;
      let long_value := Qc_of_Z (long position) * price in
      let total_value := total_value + long_value in
      let total_value :=
        if decide (0 < short position)%Z
        then total_value - Qc_of_Z (short position) * price
        else total_value in
      value_loop pf current_prices rest total_value
  end.

Definition calculate_portfolio_value (self : Backtester)
    (current_prices : gmap string Qc) : outcome Qc :=
  value_loop (portfolio self) current_prices (tickers self) (cash (portfolio self)).

(** The two sums of the valuation identity, [sum(f(ticker) for ticker in
    tickers)] over the instrument list; an instrument without a position or
    a price contributes 0 to them. *)
Definition sum_over (tickers : list string) (f : string → Qc) : Qc :=
  foldr (λ ticker acc, f ticker + acc) 0 tickers.

Definition long_value (pf : Portfolio) (current_prices : gmap string Qc)
    (ticker : string) : Qc :=
  Qc_of_Z (default 0%Z (long <$> positions pf !! ticker))
  * default 0 (current_prices !! ticker).

Definition short_value (pf : Portfolio) (current_prices : gmap string Qc)
    (ticker : string) : Qc :=
  Qc_of_Z (default 0%Z (short <$> positions pf !! ticker))
  * default 0 (current_prices !! ticker).

(** ** Evaluating closed instances *)

#[global] Instance Position_eq_dec : EqDecision Position.
Proof. solve_decision. Defined.
#[global] Instance Gains_eq_dec : EqDecision Gains.
Proof. solve_decision. Defined.
#[global] Instance Portfolio_eq_dec : EqDecision Portfolio.
Proof. solve_decision. Defined.
#[global] Instance outcome_eq_dec {A} `{EqDecision A} : EqDecision (outcome A).
Proof. solve_decision. Defined.

(** Closed facts about amounts are decided by evaluation: two canonical
    rationals are equal when their reduced fractions are. *)
Ltac by_compute :=
  cbv zeta;
  repeat match goal with |- _ ∧ _ => split end;
  (apply (bool_decide_unpack _); vm_compute; exact I).

(** The fill a call returned, if it returned; and the portfolio object
    after the call. *)
Definition filled (r : outcome (Portfolio * Z)) : option Z :=
  match r with Returned (_, n) => Some n | Raised _ => None end.

Definition after (pf : Portfolio) (r : outcome (Portfolio * Z)) : Portfolio :=
  match r with Returned (pf', _) => pf' | Raised _ => pf end.

(** ** A run of the engine *)

(** One [execute_trade] call of the driver's loop. *)
Record Trade : Type := mkTrade {
  trade_ticker : string;
  trade_action : string;
  trade_quantity : Qc;
  trade_price : Qc
}.

Definition call (pf : Portfolio) (t : Trade) : outcome (Portfolio * Z) :=
  execute_trade pf (trade_ticker t) (trade_action t) (trade_quantity t) (trade_price t).

(** The portfolio object after a call.  Every [KeyError] of [execute_trade]
    is raised by a read that precedes the first assignment, so a call that
    raises leaves the object as it was. *)
Definition step (pf : Portfolio) (t : Trade) : Portfolio := after pf (call pf t).

(** The portfolio after a sequence of calls, and the portfolios seen after
    each call of the sequence in turn. *)
Definition run (pf : Portfolio) (ts : list Trade) : Portfolio := foldl step pf ts.


(** The invariant of the position ledger: a side with no shares has a cost
    basis of 0, and a short side with no shares pledges no margin. *)
Definition flat_when_empty (position : Position) : Prop :=
  (long position = 0%Z → long_cost_basis position = 0) ∧
  (short position = 0%Z →
   short_cost_basis position = 0 ∧ short_margin_used position = 0).

(** [sum(p["short_margin_used"] for p in portfolio["positions"].values())] *)
Definition total_short_margin (pf : Portfolio) : Qc :=
  map_fold (λ _ position acc, short_margin_used position + acc) 0 (positions pf).

(** What the engine maintains on every position and on the portfolio,
    whatever the prices and the margin requirement; and what it maintains
    when neither is negative. *)
Definition position_ok (position : Position) : Prop :=
  (0 ≤ long position)%Z ∧ (0 ≤ short position)%Z ∧ flat_when_empty position.

Definition ledger_ok (pf : Portfolio) : Prop :=
  margin_used pf = total_short_margin pf ∧
  map_Forall (λ _ position, position_ok position) (positions pf).


(** ** The ratio guards of [Backtester._update_performance_metrics] *)

(** A value stored under ["sharpe_ratio"] or ["sortino_ratio"]: a finite
    number, [float("inf")], or [np.sqrt(252) * (mean / std)] kept as the mean
    and the variance it is computed from ([std] is the square root of the
    variance, in general not a rational). *)
Inductive metric : Type :=
| Finite (x : Qc)
| Infinity
| Annualized (mean_excess_return variance : Qc).

#[global] Instance metric_eq_dec : EqDecision metric.
Proof. solve_decision. Defined.

(** The two entries of the [performance_metrics] dictionary the guards
    assign; [None] is Python's [None]. *)
Record PerformanceMetrics : Type := mkMetrics {
  sharpe_ratio : option metric;
  sortino_ratio : option metric
}.

Definition Qc_of_nat (n : nat) : Qc := Qc_of_Z (Z.of_nat n).

Definition total (xs : list Qc) : Qc := foldr Qcplus 0 xs.

(** [Series.mean()]. *)
Definition mean (xs : list Qc) : Qc := total xs / Qc_of_nat (length xs).

(** The square of [Series.std()] (sample deviation, [ddof=1]); [None] is the
    [nan] pandas gives for fewer than two values. *)
Definition variance (xs : list Qc) : option Qc :=
  if decide (length xs < 2)%nat then None
  else
    let m := mean xs in
    Some (total ((λ x, (x - m) * (x - m)) <$> xs) / Qc_of_nat (length xs - 1)).

(** [std > 1e-12]: the deviation is non-negative, so it exceeds [1e-12]
    exactly when its square exceeds [1e-24]; a comparison with [nan] is
    false. *)
Definition threshold : Qc := Q2Qc (1 # 1000000000000).

Definition std_exceeds_threshold (v : option Qc) : Prop :=
  match v with
  | Some v => threshold * threshold < v
  | None => False
  end.

#[global] Instance std_exceeds_threshold_dec v : Decision (std_exceeds_threshold v).
Proof. destruct v; simpl; apply _. Defined.

Definition daily_risk_free_rate : Qc := Q2Qc (434 # 10000) / Qc_of_Z 252.

Definition excess_returns (clean_returns : list Qc) : list Qc :=
  (λ r, r - daily_risk_free_rate) <$> clean_returns.

Definition negative_returns (excess_returns : list Qc) : list Qc :=
  filter (λ e, e < 0) excess_returns.

Definition sharpe (excess_returns : list Qc) : metric :=
  let mean_excess_return := mean excess_returns in
  let std_excess_return := variance excess_returns in
  if decide (std_exceeds_threshold std_excess_return)
  then Annualized mean_excess_return (default 0 std_excess_return)
  else Finite 0.

Definition sortino (excess_returns : list Qc) : metric :=
  let mean_excess_return := mean excess_returns in
  let negative_returns := negative_returns excess_returns in
  if decide (0 < length negative_returns)%nat then
    let downside_std := variance negative_returns in
    if decide (std_exceeds_threshold downside_std)
    then Annualized mean_excess_return (default 0 downside_std)
    else if decide (0 < mean_excess_return) then Infinity else Finite 0
  else if decide (0 < mean_excess_return) then Infinity else Finite 0.

(** The method on the series [clean_returns] of its third line, up to the
    Sortino assignment; with fewer than two returns it returns at once. *)
Definition _update_performance_metrics (performance_metrics : PerformanceMetrics)
    (clean_returns : list Qc) : PerformanceMetrics :=
  if decide (length clean_returns < 2)%nat then performance_metrics
  else
    let excess_returns := excess_returns clean_returns in
    {| sharpe_ratio := Some (sharpe excess_returns);
       sortino_ratio := Some (sortino excess_returns) |}.

(** ** [Cache] of [src/data/cache.py] *)

Module Cache.
Section cache.
(** The values held by a record, compared with [==]. *)
Context {V : Type} `{EqDecision V}.

(** One cached record, a [dict[str, any]]. *)
Local Abbreviation record := (gmap string V).

Record t : Type := mk {
  _prices_cache : gmap string (list record);
  _financial_metrics_cache : gmap string (list record);
  _line_items_cache : gmap string (list record);
  _insider_trades_cache : gmap string (list record);
  _company_news_cache : gmap string (list record)
}.

(** [Cache.__init__] *)
Definition empty : t := mk ∅ ∅ ∅ ∅ ∅.

(** [[item[key_field] for item in items]], raising at the first item
    without the field. *)
Fixpoint keys_of (items : list record) (key_field : string) : outcome (list V) :=
  match items with
  | [] => Returned []
  | item :: rest =>
      k ← getitem item key_field;
      ks ← keys_of rest key_field;
      Returned (k :: ks)
  end.

(** [[item for item in new_data if item[key_field] not in existing_keys]];
    the set [existing_keys] is only tested for membership and is held as
    the list of its elements. *)
Fixpoint not_yet_cached (existing_keys : list V) (new_data : list record)
    (key_field : string) : outcome (list record) :=
  match new_data with
  | [] => Returned []
  | item :: rest =>
      k ← getitem item key_field;
      kept ← not_yet_cached existing_keys rest key_field;
      Returned (if decide (k ∈ existing_keys) then kept else item :: kept)
  end.

Definition _merge_data (existing : option (list record)) (new_data : list record)
    (key_field : string) : outcome (list record) :=
  match existing with
  | None | Some [] => Returned new_data
  | Some existing =>
      existing_keys ← keys_of existing key_field;
      let merged := existing in
      fresh ← not_yet_cached existing_keys new_data key_field;
      Returned (merged ++ fresh)%list
  end.

Definition get_prices (self : t) (ticker : string) : option (list record) :=
  _prices_cache self !! ticker.

Definition set_prices (self : t) (ticker : string) (data : list record) : outcome t :=
  merged ← _merge_data (_prices_cache self !! ticker) data "time";
  Returned (mk (<[ticker := merged]> (_prices_cache self)) (_financial_metrics_cache self)
              (_line_items_cache self) (_insider_trades_cache self)
              (_company_news_cache self)).

Definition get_financial_metrics (self : t) (ticker : string) : option (list record) :=
  _financial_metrics_cache self !! ticker.

Definition set_financial_metrics (self : t) (ticker : string) (data : list record)
    : outcome t :=
  merged ← _merge_data (_financial_metrics_cache self !! ticker) data "report_period";
  Returned (mk (_prices_cache self) (<[ticker := merged]> (_financial_metrics_cache self))
              (_line_items_cache self) (_insider_trades_cache self)
              (_company_news_cache self)).

Definition get_line_items (self : t) (ticker : string) : option (list record) :=
  _line_items_cache self !! ticker.

Definition set_line_items (self : t) (ticker : string) (data : list record) : outcome t :=
  merged ← _merge_data (_line_items_cache self !! ticker) data "report_period";
  Returned (mk (_prices_cache self) (_financial_metrics_cache self)
              (<[ticker := merged]> (_line_items_cache self)) (_insider_trades_cache self)
              (_company_news_cache self)).

Definition get_insider_trades (self : t) (ticker : string) : option (list record) :=
  _insider_trades_cache self !! ticker.

Definition set_insider_trades (self : t) (ticker : string) (data : list record)
    : outcome t :=
  merged ← _merge_data (_insider_trades_cache self !! ticker) data "filing_date";
  Returned (mk (_prices_cache self) (_financial_metrics_cache self)
              (_line_items_cache self) (<[ticker := merged]> (_insider_trades_cache self))
              (_company_news_cache self)).

Definition get_company_news (self : t) (ticker : string) : option (list record) :=
  _company_news_cache self !! ticker.

Definition set_company_news (self : t) (ticker : string) (data : list record)
    : outcome t :=
  merged ← _merge_data (_company_news_cache self !! ticker) data "date";
  Returned (mk (_prices_cache self) (_financial_metrics_cache self)
              (_line_items_cache self) (_insider_trades_cache self)
              (<[ticker := merged]> (_company_news_cache self))).

(** The five kinds of records, to speak of the setters and getters at
    once. *)
Inductive kind : Type :=
| Prices | FinancialMetrics | LineItems | InsiderTrades | CompanyNews.

Definition key_field (k : kind) : string :=
  match k with
  | Prices => "time"
  | FinancialMetrics => "report_period"
  | LineItems => "report_period"
  | InsiderTrades => "filing_date"
  | CompanyNews => "date"
  end.

Definition get (k : kind) : t → string → option (list record) :=
  match k with
  | Prices => get_prices
  | FinancialMetrics => get_financial_metrics
  | LineItems => get_line_items
  | InsiderTrades => get_insider_trades
  | CompanyNews => get_company_news
  end.

Definition set (k : kind) : t → string → list record → outcome t :=
  match k with
  | Prices => set_prices
  | FinancialMetrics => set_financial_metrics
  | LineItems => set_line_items
  | InsiderTrades => set_insider_trades
  | CompanyNews => set_company_news
  end.

(** The dedup keys of a list of records, in order ([None] where the field
    is missing), and: a record's dedup key occurs among those of the given
    records. *)
Definition keys (key_field : string) (records : list record) : list (option V) :=
  (λ r : record, r !! key_field) <$> records.

Definition key_occurs (key_field : string) (records : list record) (item : record) : Prop :=
  item !! key_field ∈ keys key_field records.

#[global] Instance key_occurs_dec key_field records item :
  Decision (key_occurs key_field records item).
Proof. unfold key_occurs. apply _. Defined.
End cache.
End Cache.

(** Goals about the order of [Qc] amounts are moved to [Q], where the
    linear and non-linear arithmetic procedures apply. *)
Ltac qc2q :=
  unfold Qclt, Qcle, Qcminus, Qcplus, Qcopp, Qcmult in *; cbn [this Q2Qc] in *;
  repeat match goal with
  | H : context [Qred _] |- _ => setoid_rewrite Qred_correct in H
  | |- context [Qred _] => setoid_rewrite Qred_correct
  end.

(** ** [create_portfolio] of [app/backend/services/portfolio.py] *)

Definition create_portfolio (initial_cash margin_requirement : Qc)
    (tickers : list string) : Portfolio :=
  {| cash := initial_cash;
     margin_requirement := margin_requirement;
     margin_used := 0;
     positions := dict_of_tickers zero_position tickers;
     realized_gains := dict_of_tickers zero_gains tickers |}.

(** ** The trading loop of [Backtester.run_backtest] *)

(** One value of the [decisions] dictionary the agent returns; a key the
    dictionary lacks is [None]. *)
Record PortfolioDecision : Type := mkDecision {
  decision_action : option string;
  decision_quantity : option Qc
}.

(** [{"action": "hold", "quantity": 0}] *)
Definition hold : PortfolioDecision := mkDecision (Some "hold") (Some 0).

(** The loop [for ticker in self.tickers] that executes the day's decisions
    and fills [executed_trades]; the price is indexed before the call. *)
Fixpoint execute_decisions (pf : Portfolio) (decisions : gmap string PortfolioDecision)
    (current_prices : gmap string Qc) (tickers : list string)
    (executed_trades : gmap string Z) : outcome (Portfolio * gmap string Z) :=
  match tickers with
  | [] => Returned (pf, executed_trades)
  | ticker :: rest =>
      let decision := default hold (decisions !! ticker) in
      let action := default "hold" (decision_action decision) in
      let quantity := default 0 (decision_quantity decision) in
      price ← getitem current_prices ticker;
      r ← execute_trade pf ticker action quantity price;
      let executed_quantity := r.2 in
      execute_decisions r.1 decisions current_prices rest
        (<[ticker := executed_quantity]> executed_trades)
  end.

(** ** The realized-gains total of [Backtester.analyze_performance] *)



(** What the open lots of a position cost when they were opened: the long
    shares at their basis, less the short shares at theirs. *)
Definition position_book (position : Position) : Qc :=
  Qc_of_Z (long position) * long_cost_basis position
  - Qc_of_Z (short position) * short_cost_basis position.


Definition gains_total (g : Gains) : Qc := gains_long g + gains_short g.


(** ** The drawdown block of [Backtester._update_performance_metrics] *)

(** The block that closes the method, reached once the series has given at
    least two returns.  A column of the values frame is a list of rows, each
    the index label of the day (the date, in the [%Y-%m-%d] rendering the
    block stores) with the value.  The quotient by the running peak is the
    one of the rationals, so the block is modelled for series whose peaks
    are not zero. *)

(** [Series.cummax]: the running maximum. *)
Fixpoint cummax_from (peak : option Qc) (values : list Qc) : list Qc :=
  match values with
  | [] => []
  | value :: rest =>
      let peak :=
        match peak with
        | Some peak => if decide (peak ≤ value) then value else peak
        | None => value
        end in
      peak :: cummax_from (Some peak) rest
  end.

Definition cummax (values : list Qc) : list Qc := cummax_from None values.

(** [(values - rolling_max) / rolling_max], label by label. *)
Definition drawdown (portfolio_values : list (string * Qc)) : list (string * Qc) :=
  let rolling_max := cummax portfolio_values.*2 in
  zip_with (λ row peak, (row.1, (row.2 - peak) / peak)) portfolio_values rolling_max.

(** [Series.idxmin] together with [Series.min]: the least value, with the
    first label that carries it. *)
Fixpoint idxmin (series : list (string * Qc)) : option (string * Qc) :=
  match series with
  | [] => None
  | (label, value) :: rest =>
      match idxmin rest with
      | Some (label', value') =>
          if decide (value' < value) then Some (label', value') else Some (label, value)
      | None => Some (label, value)
      end
  end.

(** The two entries the block writes: [max_drawdown] and
    [max_drawdown_date]. *)
Definition _update_max_drawdown (portfolio_values : list (string * Qc))
    : Qc * option string :=
  match idxmin (drawdown portfolio_values) with
  | Some (date, min_drawdown) =>
      (min_drawdown * Qc_of_Z 100,
       if decide (min_drawdown < 0) then Some date else None)
  | None => (0, None)
  end.

(** ** The day statistics of [Backtester.analyze_performance] *)

(** A day's return as [Series.pct_change] computes it, [value / previous - 1]
    on floats: infinite when the previous value is zero and the value is
    not, [nan] when both are zero and on the first day. *)
Inductive daily_return : Type :=
  | Return (r : Qc)
  | PlusInf
  | MinusInf
  | NaN.

#[global] Instance daily_return_eq_dec : EqDecision daily_return.
Proof. solve_decision. Defined.

Definition pct (previous value : Qc) : daily_return :=
  if decide (previous = 0) then
    if decide (0 < value) then PlusInf
    else if decide (value < 0) then MinusInf
    else NaN
  else Return (value / previous - 1).

Fixpoint pct_change_from (previous : Qc) (values : list Qc) : list daily_return :=
  match values with
  | [] => []
  | value :: rest => pct previous value :: pct_change_from value rest
  end.

Definition pct_change (values : list Qc) : list daily_return :=
  match values with
  | [] => []
  | value :: rest => NaN :: pct_change_from value rest
  end.

Definition fillna (fill : Qc) (returns : list daily_return) : list daily_return :=
  (λ r, match r with NaN => Return fill | _ => r end) <$> returns.

(** The [Daily Return] column. *)
Definition daily_returns (values : list Qc) : list daily_return :=
  fillna 0 (pct_change values).

(** [Daily Return > 0]; a comparison with [nan] is false. *)
Definition is_win (r : daily_return) : bool :=
  match r with
  | Return r => bool_decide (0 < r)
  | PlusInf => true
  | MinusInf | NaN => false
  end.

Definition winning_days (values : list Qc) : nat :=
  length (filter is_win (daily_returns values)).

Definition total_days (values : list Qc) : nat :=
  Nat.max (length (daily_returns values) - 1) 1.

Definition win_rate (values : list Qc) : Qc :=
  Qc_of_nat (winning_days values) / Qc_of_nat (total_days values) * Qc_of_Z 100.

(** [(Daily Return > 0).astype(int)], with [true] for 1. *)
Definition returns_binary (values : list Qc) : list bool :=
  is_win <$> daily_returns values.

(** [itertools.groupby] on the keys themselves: the runs of equal
    consecutive keys, each with its length. *)
Fixpoint groupby (keys : list bool) : list (bool * nat) :=
  match keys with
  | [] => []
  | k :: rest =>
      match groupby rest with
      | (k', n) :: groups =>
          if decide (k = k') then (k, S n) :: groups
          else (k, 1%nat) :: (k', n) :: groups
      | [] => [(k, 1%nat)]
      end
  end.

(** [max((len(list(g)) for k, g in groups if k == key), default=0)]. *)
Definition max_len (key : bool) (groups : list (bool * nat)) : nat :=
  foldr Nat.max 0%nat (snd <$> filter (λ g, g.1 = key) groups).

Definition max_consecutive_wins (values : list Qc) : nat :=
  let returns_binary := returns_binary values in
  if decide (0 < length returns_binary)%nat
  then max_len true (groupby returns_binary)
  else 0%nat.

Definition max_consecutive_losses (values : list Qc) : nat :=
  let returns_binary := returns_binary values in
  if decide (0 < length returns_binary)%nat
  then max_len false (groupby returns_binary)
  else 0%nat.

(** ** [_make_api_request] of [src/tools/api.py] *)

(** The loop looks at the status code of a response only.  The server is
    the sequence of responses it gives to the requests in the order they
    are sent; the effects of a call are the number of requests sent and the
    seconds slept, in order. *)
Record Response : Type := mkResponse {
  status_code : Z;
  text : string
}.

#[global] Instance Response_eq_dec : EqDecision Response.
Proof. solve_decision. Defined.

Record Exchange : Type := mkExchange {
  returned : option Response;
  requests_sent : nat;
  slept : list Z
}.

#[global] Instance Exchange_eq_dec : EqDecision Exchange.
Proof. solve_decision. Defined.

(** The body of [for attempt in range(max_retries + 1)], on the attempts
    left; falling out of the loop returns [None]. *)
Fixpoint request_loop (server : nat → Response) (max_retries : Z)
    (attempts : list Z) (sent : nat) (delays : list Z) : Exchange :=
  match attempts with
  | [] => mkExchange None sent delays
  | attempt :: rest =>
      let response := server sent in
      if decide (status_code response = 429 ∧ attempt < max_retries)%Z then
        let delay := (60 + 30 * attempt)%Z in
        request_loop server max_retries rest (S sent) (delays ++ [delay])
      else mkExchange (Some response) (S sent) delays
  end.

Definition _make_api_request (server : nat → Response) (max_retries : Z) : Exchange :=
  request_loop server max_retries (seqZ 0 (max_retries + 1)) 0 [].

(** ** Sample states used to exercise the statements *)

(** A portfolio on one instrument with 1000 in cash and a margin requirement
    of one half. *)
Definition demo_portfolio : Portfolio :=
  init_portfolio ["X"] (Qc_of_Z 1000) (Q2Qc (1 # 2)).

(** A price record, and a cache holding two of them for one ticker. *)
Definition bar (time close : string) : gmap string string :=
  {["time" := time; "close" := close]}.

Definition demo_cache : Cache.t :=
  Cache.mk {["AAPL" := [bar "2024-01-02" "185"; bar "2024-01-03" "184"]]} ∅ ∅ ∅ ∅.

(** A series of four daily values, and a server that answers with status
    429 twice before it answers with 200. *)
Definition demo_values : list (string * Qc) :=
  [("2024-01-01", Qc_of_Z 100); ("2024-01-02", Qc_of_Z 120);
   ("2024-01-03", Qc_of_Z 90); ("2024-01-04", Qc_of_Z 110)].

Definition demo_server (sent : nat) : Response :=
  if decide (sent < 2)%nat then mkResponse 429 "slow down" else mkResponse 200 "ok".

(** Closes the routine cases of [position_ok]. *)
Ltac position_ok_tac :=
  repeat split; simpl in *; intros; try done; try lia;
  try match goal with
      | Hf : _ → _ ∧ _ |- _ => apply Hf; lia
      | Hf : _ → _ = _ |- _ => apply Hf; lia
      end.

(** Reads a field of an updated portfolio or position without unfolding the
    arithmetic of amounts. *)
Ltac fields :=
  cbn [cash margin_used margin_requirement positions realized_gains
       long short long_cost_basis short_cost_basis short_margin_used
       gains_long gains_short
       set_cash set_margin_used set_position set_gains
       set_long set_short set_long_cost_basis set_short_cost_basis
       set_short_margin_used fst snd] in *.


(** * Properties *)

(** ** Arithmetic of amounts *)


Lemma Qc_of_Z_pos (n : Z) : (0 < n)%Z → 0 < Qc_of_Z n.
Proof. intros H. rewrite <-Z2Qc_inj_0. exact (proj1 (Z2Qc_inj_lt 0 n) H). Qed.

Lemma Qc_of_Z_nonneg (n : Z) : (0 ≤ n)%Z → 0 ≤ Qc_of_Z n.
Proof. intros H. rewrite <-Z2Qc_inj_0. exact (proj1 (Z2Qc_inj_le 0 n) H). Qed.

Lemma Qc_of_Z_neq_0 (n : Z) : n ≠ 0%Z → Qc_of_Z n ≠ 0.
Proof. intros H E. apply H. apply Z2Qc_inj. by rewrite Z2Qc_inj_0. Qed.

Lemma Qc_pos_neq_0 (x : Qc) : 0 < x → x ≠ 0.
Proof. intros H E. symmetry in E. revert E. by apply Qclt_not_eq. Qed.

Lemma int_Qfloor (x : Qc) : 0 ≤ x → int x = Qfloor x.
Proof.
  destruct x as [[n d] Hc]. unfold int, Qcle, Qle. simpl. intros H.
  apply Z.quot_div_nonneg; lia.
Qed.

Lemma int_nonneg (x : Qc) : 0 ≤ x → (0 ≤ int x)%Z.
Proof.
  intros H. rewrite int_Qfloor by done.
  change 0%Z with (Qfloor 0). apply Qfloor_resp_le. exact H.
Qed.




Lemma Qcdiv_nonneg (x y : Qc) : 0 ≤ x → 0 < y → 0 ≤ x / y.
Proof.
  intros Hx Hy. pose proof (Qcinv_pos y Hy) as Hi. unfold Qcdiv.
  revert Hi. generalize (/ y). intros z Hz. qc2q. nra.
Qed.



(** ** Scenarios of the engine, evaluated *)

Example scenario_buy_then_sell :
  let pf0 := init_portfolio ["X"] (Qc_of_Z 100000) 0 in
  let r1 := execute_trade pf0 "X" "buy" (Qc_of_Z 100) (Qc_of_Z 50) in
  let r2 := execute_trade (after pf0 r1) "X" "sell" (Qc_of_Z 50) (Qc_of_Z 60) in
  filled r1 = Some 100%Z ∧ cash (after pf0 r1) = Qc_of_Z 95000 ∧
  positions (after pf0 r1) !! "X" = Some (mkPosition 100 0 (Qc_of_Z 50) 0 0) ∧
  filled r2 = Some 50%Z ∧ cash (after (after pf0 r1) r2) = Qc_of_Z 98000 ∧
  realized_gains (after (after pf0 r1) r2) !! "X" = Some (mkGains (Qc_of_Z 500) 0).
Proof. by_compute. Qed.

Example scenario_short_then_cover :
  let pf0 := init_portfolio ["X"] (Qc_of_Z 100000) (Q2Qc (1 # 2)) in
  let r1 := execute_trade pf0 "X" "short" (Qc_of_Z 100) (Qc_of_Z 20) in
  let r2 := execute_trade (after pf0 r1) "X" "cover" (Qc_of_Z 100) (Qc_of_Z 15) in
  filled r1 = Some 100%Z ∧ cash (after pf0 r1) = Qc_of_Z 101000 ∧
  margin_used (after pf0 r1) = Qc_of_Z 1000 ∧
  filled r2 = Some 100%Z ∧ cash (after (after pf0 r1) r2) = Qc_of_Z 100500 ∧
  realized_gains (after (after pf0 r1) r2) !! "X" = Some (mkGains 0 (Qc_of_Z 500)).
Proof. by_compute. Qed.

Example scenario_partial_buy :
  let pf0 := init_portfolio ["X"] (Qc_of_Z 1000) 0 in
  let r1 := execute_trade pf0 "X" "buy" (Qc_of_Z 1000) (Qc_of_Z 10) in
  filled r1 = Some 100%Z ∧ cash (after pf0 r1) = 0.
Proof. by_compute. Qed.

(** ** Cash after a call *)





Lemma int_of_positive (x : Qc) : ¬ x ≤ 0 → (0 ≤ int x)%Z.
Proof. intros H. apply int_nonneg, Qclt_le_weak, Qcnot_le_lt, H. Qed.





(** ** Shorting with a zero margin requirement *)





(** ** Covering a short *)

Lemma execute_trade_tracked pf ticker action quantity current_price position :
  positions pf !! ticker = Some position → ¬ quantity ≤ 0 →
  execute_trade pf ticker action quantity current_price =
    if decide (action = "buy")
    then Returned (buy pf ticker position (int quantity) current_price)
    else if decide (action = "sell")
    then sell pf ticker position (int quantity) current_price
    else if decide (action = "short")
    then Returned (short_sell pf ticker position (int quantity) current_price)
    else if decide (action = "cover")
    then cover pf ticker position (int quantity) current_price
    else Returned (pf, 0%Z).
Proof.
  intros Hpos Hq. unfold execute_trade, getitem. rewrite Hpos.
  by rewrite decide_False by done.
Qed.






(** ** Buying *)







(** ** The margin ledger along a run *)

Lemma short_margin_fold_comm (j1 j2 : string) (z1 z2 : Position) (y : Qc) :
  short_margin_used z1 + (short_margin_used z2 + y)
  = short_margin_used z2 + (short_margin_used z1 + y).
Proof. ring. Qed.

Lemma short_margin_fold_insert (m : gmap string Position) ticker position position' :
  m !! ticker = Some position →
  map_fold (λ _ p acc, short_margin_used p + acc) 0 (<[ticker := position']> m)
  = map_fold (λ _ p acc, short_margin_used p + acc) 0 m
    - short_margin_used position + short_margin_used position'.
Proof.
  intros Hpos. rewrite <-insert_delete_eq.
  rewrite map_fold_insert_L;
    [|intros; apply short_margin_fold_comm; done|apply lookup_delete_eq].
  rewrite (map_fold_delete_L _ _ ticker position m);
    [|intros; apply short_margin_fold_comm; done|done].
  ring.
Qed.


(** Replacing the position of one tracked instrument, with [margin_used]
    moved by the change of its pledged margin, keeps the ledger in order. *)
Lemma ledger_ok_update (pf pf' : Portfolio) ticker position position' :
  ledger_ok pf →
  positions pf !! ticker = Some position →
  position_ok position' →
  positions pf' = <[ticker := position']> (positions pf) →
  margin_used pf' =
    margin_used pf - short_margin_used position + short_margin_used position' →
  ledger_ok pf'.
Proof.
  intros [Hsum Hall] Hpos Hok Hp Hm. split.
  - unfold total_short_margin. rewrite Hm, Hp, Hsum.
    by rewrite (short_margin_fold_insert _ _ _ _ Hpos).
  - rewrite Hp. by apply map_Forall_insert_2.
Qed.

Lemma dict_of_tickers_lookup {V} (v x : V) tickers ticker :
  dict_of_tickers v tickers !! ticker = Some x → x = v.
Proof.
  induction tickers as [|t ts IH]; simpl; [done|].
  destruct (decide (t = ticker)) as [->|Hne].
  - rewrite lookup_insert_eq. congruence.
  - by rewrite lookup_insert_ne.
Qed.

Lemma init_portfolio_ledger_ok tickers initial_capital initial_margin_requirement :
  ledger_ok (init_portfolio tickers initial_capital initial_margin_requirement).
Proof.
  split; simpl.
  - unfold total_short_margin. simpl.
    induction tickers as [|t ts IH]; simpl; [done|].
    destruct (dict_of_tickers zero_position ts !! t) as [x|] eqn:E.
    + rewrite insert_id; [done|]. by rewrite (dict_of_tickers_lookup _ _ _ _ E) in E.
    + rewrite map_fold_insert_L;
        [|intros; apply short_margin_fold_comm; done|done].
      rewrite <-IH. simpl. ring.
  - intros ticker position Hpos. apply dict_of_tickers_lookup in Hpos as ->.
    repeat split; done.
Qed.

Lemma buy_shape pf ticker position quantity current_price :
  (0 ≤ quantity)%Z →
  buy pf ticker position quantity current_price = (pf, 0%Z) ∨
  ∃ k, (0 ≤ k)%Z ∧
    buy pf ticker position quantity current_price =
      (fill_buy pf ticker position k (Qc_of_Z k * current_price), k).
Proof.
  intros Hq. unfold buy. cbv zeta.
  destruct (decide (_ ≤ cash pf)); [right; by exists quantity|].
  destruct (decide (0 < _)%Z); [|by left].
  right. eexists. split; [|reflexivity]. lia.
Qed.

Lemma short_sell_shape pf ticker position quantity current_price :
  (0 ≤ quantity)%Z →
  short_sell pf ticker position quantity current_price = (pf, 0%Z) ∨
  ∃ k, (0 ≤ k)%Z ∧
    short_sell pf ticker position quantity current_price =
      (fill_short pf ticker position k current_price (current_price * Qc_of_Z k)
         (current_price * Qc_of_Z k * margin_requirement pf), k).
Proof.
  intros Hq. unfold short_sell. cbv zeta.
  destruct (decide (_ ≤ cash pf)); [right; by exists quantity|].
  destruct (decide (0 < _)%Z); [|by left].
  right. eexists. split; [|reflexivity]. lia.
Qed.

Lemma Qcmult_nonneg (x y : Qc) : 0 ≤ x → 0 ≤ y → 0 ≤ x * y.
Proof. intros Hx Hy. qc2q. nra. Qed.

Lemma Qcdiv_le_1 (a b : Qc) : a ≤ b → 0 < b → a / b ≤ 1.
Proof.
  intros Hle Hb. pose proof (Qcinv_pos _ Hb) as Hi.
  assert (E : Q2Qc 1 = b * / b) by (field; by apply Qc_pos_neq_0).
  rewrite E. unfold Qcdiv. revert Hi. generalize (/ b). intros i Hi. qc2q. nra.
Qed.

(** *** Each branch keeps the ledger in order *)

Lemma fill_buy_ledger_ok pf ticker position k cost :
  ledger_ok pf → positions pf !! ticker = Some position → (0 ≤ k)%Z →
  ledger_ok (fill_buy pf ticker position k cost).
Proof.
  intros Hok Hpos Hk.
  destruct (proj2 Hok _ _ Hpos) as (Hl & Hs & Hfl & Hfs).
  eapply ledger_ok_update; [exact Hok | exact Hpos | | reflexivity | ].
  - destruct (decide (0 < long position + k)%Z) as [Hlk|Hlk]; position_ok_tac.
  - simpl. destruct (decide (0 < long position + k)%Z); simpl; ring.
Qed.

Lemma fill_short_ledger_ok pf ticker position k current_price :
  ledger_ok pf → positions pf !! ticker = Some position → (0 ≤ k)%Z →
  ledger_ok (fill_short pf ticker position k current_price (current_price * Qc_of_Z k)
               (current_price * Qc_of_Z k * margin_requirement pf)).
Proof.
  intros Hok Hpos Hk.
  destruct (proj2 Hok _ _ Hpos) as (Hl & Hs & Hfl & Hfs).
  eapply ledger_ok_update; [exact Hok | exact Hpos | | reflexivity | ].
  - destruct (decide (0 < short position + k)%Z) as [Hsk|Hsk].
    + position_ok_tac.
    + assert (k = 0%Z) as -> by lia. assert (Hs0 : short position = 0%Z) by lia.
      destruct (Hfs Hs0) as [Hb Hsm0].
      position_ok_tac. rewrite Hsm0, Z2Qc_inj_0. ring.
  - simpl. destruct (decide (0 < short position + k)%Z); simpl; ring.
Qed.

Lemma sell_ledger_ok pf ticker position quantity current_price pf' n :
  ledger_ok pf → positions pf !! ticker = Some position →
  sell pf ticker position quantity current_price = Returned (pf', n) →
  ledger_ok pf'.
Proof.
  intros Hok Hpos. unfold sell. cbv zeta.
  destruct (proj2 Hok _ _ Hpos) as (Hl & Hs & Hfl & Hfs).
  destruct (decide (0 < _)%Z) as [Hq|Hq]; [|by intros [= <- _]].
  destruct (getitem _ _) as [g|]; simpl; [|done]. intros [= <- _].
  eapply ledger_ok_update; [exact Hok | exact Hpos | | simpl; apply insert_insert_eq | ].
  - destruct (decide (_ = 0%Z)) as [E|E]; position_ok_tac.
  - simpl. destruct (decide (_ = 0%Z)); simpl; ring.
Qed.

Lemma cover_ledger_ok pf ticker position quantity current_price pf' n :
  ledger_ok pf → positions pf !! ticker = Some position →
  cover pf ticker position quantity current_price = Returned (pf', n) →
  ledger_ok pf'.
Proof.
  intros Hok Hpos. unfold cover, margin_to_release. cbv zeta.
  destruct (proj2 Hok _ _ Hpos) as (Hl & Hs & Hfl & Hfs).
  destruct (decide (0 < _)%Z) as [Hq|Hq]; [|by intros [= <- _]].
  destruct (getitem _ _) as [g|]; simpl; [|done]. intros [= <- _].
  assert (Hsp : (0 < short position)%Z) by lia.
  rewrite !(decide_True (P := (0 < short position)%Z)) by done.
  set (fill := (quantity `min` short position)%Z) in *.
  eapply ledger_ok_update; [exact Hok | exact Hpos | | simpl; reflexivity | ].
  - destruct (decide (_ = 0%Z)) as [E|E]; position_ok_tac.
  - simpl. destruct (decide (_ = 0%Z)) as [E|E]; simpl; [|ring].
    replace fill with (short position) by lia.
    field. apply Qc_of_Z_neq_0. lia.
Qed.

(** *** Each branch keeps the pledged margins non-negative *)






(** *** One call, and a run *)

Lemma step_margin_requirement pf t :
  margin_requirement (step pf t) = margin_requirement pf.
Proof.
  destruct t as [ticker action quantity current_price].
  unfold step, call, execute_trade, getitem. simpl.
  destruct (decide (quantity ≤ 0)); [done|]. cbv zeta.
  destruct (positions pf !! ticker) as [position|]; simpl; [|done].
  destruct (decide (action = "buy")) as [_|_].
  { unfold buy. cbv zeta. by repeat (destruct (decide _); simpl). }
  destruct (decide (action = "sell")) as [_|_].
  { unfold sell, getitem. cbv zeta.
    destruct (decide (0 < _)%Z); [|done]. by destruct (realized_gains pf !! ticker). }
  destruct (decide (action = "short")) as [_|_].
  { unfold short_sell. cbv zeta. by repeat (destruct (decide _); simpl). }
  destruct (decide (action = "cover")) as [_|_]; [|done].
  unfold cover, getitem. cbv zeta.
  destruct (decide (0 < _)%Z); [|done]. by destruct (realized_gains pf !! ticker).
Qed.

Lemma step_ledger_ok pf t : ledger_ok pf → ledger_ok (step pf t).
Proof.
  intros Hok. destruct t as [ticker action quantity current_price].
  unfold step, call, execute_trade. simpl.
  destruct (decide (quantity ≤ 0)) as [Hq|Hq]; [done|]. cbv zeta.
  pose proof (int_of_positive _ Hq) as Hk.
  unfold getitem. destruct (positions pf !! ticker) as [position|] eqn:Hpos; simpl; [|done].
  destruct (decide (action = "buy")) as [_|_].
  { destruct (buy_shape pf ticker position (int quantity) current_price Hk)
      as [E|(k & Hk' & E)]; rewrite E; simpl; [done|]. by apply fill_buy_ledger_ok. }
  destruct (decide (action = "sell")) as [_|_].
  { destruct (sell _ _ _ _ _) as [[pf' k]|] eqn:E; simpl; [|done].
    by eapply sell_ledger_ok. }
  destruct (decide (action = "short")) as [_|_].
  { destruct (short_sell_shape pf ticker position (int quantity) current_price Hk)
      as [E|(k & Hk' & E)]; rewrite E; simpl; [done|]. by apply fill_short_ledger_ok. }
  destruct (decide (action = "cover")) as [_|_]; [|done].
  destruct (cover _ _ _ _ _) as [[pf' k]|] eqn:E; simpl; [|done].
  by eapply cover_ledger_ok.
Qed.


Lemma run_ledger_ok pf ts : ledger_ok pf → ledger_ok (run pf ts).
Proof.
  revert pf. induction ts as [|t ts IH]; intros pf Hok; simpl; [done|].
  by apply IH, step_ledger_ok.
Qed.


(** Every position of every portfolio the engine reaches satisfies the
    invariant of the position ledger. *)
Lemma run_flat_when_empty tickers initial_capital initial_margin_requirement ts
    ticker position :
  positions (run (init_portfolio tickers initial_capital initial_margin_requirement) ts)
    !! ticker = Some position →
  flat_when_empty position.
Proof.
  intros Hpos.
  destruct (run_ledger_ok _ ts (init_portfolio_ledger_ok tickers initial_capital
              initial_margin_requirement)) as [_ Hall].
  by destruct (Hall _ _ Hpos) as (_ & _ & H).
Qed.



(** ** Valuation *)

Lemma value_loop_priced pf (current_prices : gmap string Qc) tickers total_value :
  Forall (λ ticker, is_Some (current_prices !! ticker) ∧
                    is_Some (positions pf !! ticker)) tickers →
  map_Forall (λ _ position, (0 ≤ short position)%Z) (positions pf) →
  value_loop pf current_prices tickers total_value =
    Returned (total_value + sum_over tickers (long_value pf current_prices)
              - sum_over tickers (short_value pf current_prices)).
Proof.
  intros H Hshort. revert total_value.
  induction H as [|ticker rest [[price Hprice] [position Hpos]] _ IH];
    intros total_value; simpl.
  - f_equal. ring.
  - pose proof (Hshort _ _ Hpos) as Hs. simpl in Hs. unfold getitem. rewrite Hpos, Hprice. simpl. rewrite IH.
    unfold long_value, short_value. rewrite Hpos, Hprice. simpl. f_equal.
    destruct (decide (0 < short position)%Z) as [Hlt|Hge].
    + ring.
    + replace (short position) with 0%Z by lia. rewrite Z2Qc_inj_0. ring.
Qed.

Lemma value_loop_unpriced pf (current_prices : gmap string Qc) tickers total_value ticker :
  ticker ∈ tickers → current_prices !! ticker = None →
  ∃ key, value_loop pf current_prices tickers total_value = Raised key.
Proof.
  intros Hin Hnone. revert total_value.
  induction tickers as [|t rest IH]; intros total_value; [by apply elem_of_nil in Hin|].
  simpl. unfold getitem.
  destruct (positions pf !! t) as [position|]; simpl; [|by eexists].
  destruct (current_prices !! t) as [price|] eqn:Hprice; simpl; [|by eexists].
  apply elem_of_cons in Hin as [->|Hin]; [congruence|]. by apply IH.
Qed.

(** C7, as amended: when the price mapping has a price for every instrument of
    the instrument list (each with a position, no short side negative),
    [calculate_portfolio_value] returns cash plus the sum of long shares times
    price minus the sum of short shares times price; an instrument of the list
    without a price makes the call raise [KeyError], whatever its position. *)
Theorem portfolio_value_identity (self : Backtester) (current_prices : gmap string Qc) :
  (Forall (λ ticker, is_Some (current_prices !! ticker) ∧
                     is_Some (positions (portfolio self) !! ticker)) (tickers self) →
   map_Forall (λ _ position, (0 ≤ short position)%Z) (positions (portfolio self)) →
   calculate_portfolio_value self current_prices =
     Returned (cash (portfolio self)
               + sum_over (tickers self) (long_value (portfolio self) current_prices)
               - sum_over (tickers self) (short_value (portfolio self) current_prices))) ∧
  (∀ ticker, ticker ∈ tickers self → current_prices !! ticker = None →
     ∃ key, calculate_portfolio_value self current_prices = Raised key).
Proof.
  split.
  - apply value_loop_priced.
  - intros ticker. apply value_loop_unpriced.
Qed.

Lemma portfolio_value_identity_witness :
  let self := mkBacktester ["X"; "Y"]
                (run (init_portfolio ["X"; "Y"] (Qc_of_Z 1000) (Q2Qc (1 # 2)))
                   [mkTrade "X" "buy" (Qc_of_Z 10) (Qc_of_Z 20);
                    mkTrade "Y" "short" (Qc_of_Z 4) (Qc_of_Z 5)]) in
  let current_prices : gmap string Qc := {["X" := Qc_of_Z 30; "Y" := Qc_of_Z 2]} in
  calculate_portfolio_value self current_prices = Returned (Qc_of_Z 1102) ∧
  ∃ key, calculate_portfolio_value self {["X" := Qc_of_Z 30]} = Raised key.
Proof.
  cbv zeta. split.
  - rewrite (proj1 (portfolio_value_identity _ _)); compute_done.
  - apply (proj2 (portfolio_value_identity _ _) "Y"); compute_done.
Defined.

(** C7, as stated, fails: an instrument with no position and no price is not
    harmless, indexing the price mapping raises [KeyError]. *)
Lemma missing_price_raises :
  let self := init ["X"] (Qc_of_Z 1000) 0 in
  let current_prices : gmap string Qc := ∅ in
  (∀ ticker position,
     positions (portfolio self) !! ticker = Some position →
     long position ≠ 0%Z ∨ short position ≠ 0%Z →
     is_Some (current_prices !! ticker)) ∧
  calculate_portfolio_value self current_prices = Raised "X".
Proof.
  cbv zeta. split; [|compute_done].
  intros ticker position Hpos.
  apply dict_of_tickers_lookup in Hpos as ->. simpl. intros [H|H]; done.
Qed.

(** ** Calls that fill nothing *)










(** ** The ratio guards *)

(** C9, as amended: on a series of at least two returns the update assigns
    both ratios and raises nothing; when the deviation of the excess returns
    does not exceed [1e-12] the Sharpe ratio is 0; when there are negative
    excess returns and their deviation does not exceed [1e-12] (or is
    undefined), the Sortino ratio is infinity if the mean excess return is
    positive and 0 otherwise. *)
Theorem ratios_when_deviation_vanishes (performance_metrics : PerformanceMetrics)
    (clean_returns : list Qc) :
  (2 ≤ length clean_returns)%nat →
  let excess := excess_returns clean_returns in
  let updated := _update_performance_metrics performance_metrics clean_returns in
  (¬ std_exceeds_threshold (variance excess) →
   sharpe_ratio updated = Some (Finite 0)) ∧
  (negative_returns excess ≠ [] →
   ¬ std_exceeds_threshold (variance (negative_returns excess)) →
   sortino_ratio updated =
     Some (if decide (0 < mean excess) then Infinity else Finite 0)).
Proof.
  intros Hlen excess updated. subst updated. unfold _update_performance_metrics.
  rewrite decide_False by lia. simpl. fold excess. split.
  - intros Hstd. unfold sharpe. cbv zeta. by rewrite decide_False by done.
  - intros Hneg Hstd. unfold sortino. cbv zeta.
    rewrite decide_True by (destruct (negative_returns excess); simpl; [done|lia]).
    by rewrite decide_False by done.
Qed.

Lemma ratios_when_deviation_vanishes_witness :
  let steady := [Q2Qc (1 # 100); Q2Qc (1 # 100); Q2Qc (1 # 100)] in
  let falling := [Q2Qc (-1 # 100); Q2Qc (-1 # 100)] in
  sharpe_ratio (_update_performance_metrics (mkMetrics None None) steady)
    = Some (Finite 0) ∧
  sortino_ratio (_update_performance_metrics (mkMetrics None None) falling)
    = Some (Finite 0).
Proof.
  cbv zeta. split.
  - apply (ratios_when_deviation_vanishes (mkMetrics None None)
             [Q2Qc (1 # 100); Q2Qc (1 # 100); Q2Qc (1 # 100)]); compute_done.
  - rewrite (proj2 (ratios_when_deviation_vanishes (mkMetrics None None)
                      [Q2Qc (-1 # 100); Q2Qc (-1 # 100)] ltac:(compute_done)));
      compute_done.
Defined.

(** C9, as stated, fails for the Sortino ratio: with two equal losses and a
    larger gain the downside deviation is exactly 0 and the mean excess return
    is positive, and the ratio assigned is infinity, not 0. *)
Lemma sortino_infinite_at_zero_deviation :
  let clean_returns := [Q2Qc (-1 # 2); Q2Qc (-1 # 2); Qc_of_Z 3] in
  let excess := excess_returns clean_returns in
  variance (negative_returns excess) = Some 0 ∧
  ¬ std_exceeds_threshold (variance (negative_returns excess)) ∧
  sortino_ratio (_update_performance_metrics (mkMetrics None None) clean_returns)
    = Some Infinity ∧
  Some Infinity ≠ Some (Finite 0).
Proof. cbv zeta. split_and!; compute_done. Qed.

(** ** The cache *)

Section cache_facts.
Context {V : Type} `{EqDecision V}.
Implicit Types (items cached data : list (gmap string V)) (key_field : string).

Lemma keys_of_returns key_field items :
  Forall (λ r, is_Some (r !! key_field)) items →
  ∃ ks, Cache.keys_of items key_field = Returned ks ∧ Some <$> ks = Cache.keys key_field items.
Proof.
  unfold Cache.keys.
  induction 1 as [|r items [k Hk] _ (ks & E & Hks)].
  { exists []. split; reflexivity. }
  exists (k :: ks). split.
  - cbn [Cache.keys_of]. unfold getitem. rewrite Hk, E. reflexivity.
  - rewrite !fmap_cons. by rewrite Hks, Hk.
Qed.

Lemma not_yet_cached_returns key_field cached ks data :
  Some <$> ks = Cache.keys key_field cached →
  Forall (λ r, is_Some (r !! key_field)) data →
  Cache.not_yet_cached ks data key_field =
    Returned (filter (λ r, ¬ Cache.key_occurs key_field cached r) data).
Proof.
  intros Hks. induction 1 as [|r data [k Hk] _ IH]; [done|].
  cbn [Cache.not_yet_cached]. unfold getitem. rewrite Hk, IH. simpl. f_equal.
  assert (Hiff : k ∈ ks ↔ Cache.key_occurs key_field cached r).
  { unfold Cache.key_occurs. rewrite <-Hks, Hk. split.
    - intros Hin. apply list_elem_of_fmap. by exists k.
    - intros Hin. by apply list_elem_of_fmap in Hin as (k' & [= ->] & Hk'). }
  rewrite filter_cons.
  destruct (decide (k ∈ ks)) as [Hin|Hin];
    destruct (decide (¬ Cache.key_occurs key_field cached r)) as [Hn|Hn];
    try done; tauto.
Qed.

Lemma filter_nothing_cached key_field data :
  filter (λ r, ¬ Cache.key_occurs key_field [] r) data = data.
Proof.
  induction data as [|r data IH]; [done|].
  rewrite filter_cons, decide_True, IH; [done|].
  unfold Cache.key_occurs. simpl. apply not_elem_of_nil.
Qed.

Lemma merge_data_returns key_field (existing : option (list (gmap string V))) data :
  let cached := default [] existing in
  (cached ≠ [] → Forall (λ r, is_Some (r !! key_field)) (cached ++ data)%list) →
  Cache._merge_data existing data key_field =
    Returned (cached ++ filter (λ r, ¬ Cache.key_occurs key_field cached r) data)%list.
Proof.
  intros cached Hkeys. unfold Cache._merge_data.
  destruct existing as [[|r items]|]; simpl in *.
  - by rewrite filter_nothing_cached.
  - assert (Hall : Forall (λ r, is_Some (r !! key_field)) ((r :: items) ++ data)%list)
      by by apply Hkeys.
    apply Forall_app in Hall as [Hc Hd].
    destruct (keys_of_returns key_field _ Hc) as (ks & E & Hks).
    simpl in E. rewrite E. simpl.
    by rewrite (not_yet_cached_returns key_field (r :: items) ks data Hks Hd).
  - by rewrite filter_nothing_cached.
Qed.



End cache_facts.


(** The dedup key is only compared with the keys already cached: two new
    records of one batch that share a key are both stored. *)
Example set_keeps_repeats_within_a_batch :
  ∃ self',
    Cache.set_prices (Cache.empty (V := string)) "AAPL"
      [bar "2024-01-02" "185"; bar "2024-01-02" "186"] = Returned self' ∧
    Cache.get_prices self' "AAPL" = Some [bar "2024-01-02" "185"; bar "2024-01-02" "186"].
Proof. eexists. split; [reflexivity|]. compute_done. Qed.

(** * Further properties of the code *)

(** ** What a call fills *)





(** X1: a sell fills [max(0, min(int(quantity), long))] shares and takes
    them off the long side, adding [fill * price] to cash; a cover fills
    [max(0, min(int(quantity), short))] and takes them off the short side.
    Neither touches the other side of the position. *)
Theorem closing_trades_fill_what_is_held (pf : Portfolio) (ticker : string)
    (quantity current_price : Qc) (position : Position) (g : Gains) :
  positions pf !! ticker = Some position →
  realized_gains pf !! ticker = Some g →
  0 < quantity →
  (let fill := Z.max 0 (Z.min (int quantity) (long position)) in
   ∃ pf' position',
     execute_trade pf ticker "sell" quantity current_price = Returned (pf', fill) ∧
     positions pf' !! ticker = Some position' ∧
     long position' = (long position - fill)%Z ∧
     short position' = short position ∧
     cash pf' = cash pf + Qc_of_Z fill * current_price) ∧
  (let fill := Z.max 0 (Z.min (int quantity) (short position)) in
   ∃ pf' position',
     execute_trade pf ticker "cover" quantity current_price = Returned (pf', fill) ∧
     positions pf' !! ticker = Some position' ∧
     short position' = (short position - fill)%Z ∧
     long position' = long position).
Proof.
  intros Hpos Hg Hq.
  assert (Hnq : ¬ quantity ≤ 0) by by apply Qclt_not_le.
  rewrite !(execute_trade_tracked _ _ _ _ _ _ Hpos Hnq). simpl. split.
  - unfold sell, getitem. cbv zeta. rewrite Hg. simpl.
    destruct (decide (0 < _)%Z) as [Hk|Hk].
    + rewrite Z.max_r by lia. eexists _, _.
      split; [reflexivity|]. split; [apply lookup_insert_eq|].
      by destruct (decide (_ = 0%Z)).
    + rewrite Z.max_l by lia. exists pf, position. rewrite Z2Qc_inj_0.
      split; [done|]. split; [done|]. split; [lia|]. split; [done|]. ring.
  - unfold cover, getitem. cbv zeta. rewrite Hg. simpl.
    destruct (decide (0 < _)%Z) as [Hk|Hk].
    + rewrite Z.max_r by lia. eexists _, _.
      split; [reflexivity|]. split; [apply lookup_insert_eq|].
      by destruct (decide (_ = 0%Z)).
    + rewrite Z.max_l by lia. exists pf, position.
      split; [done|]. split; [done|]. split; [lia|done].
Qed.

Lemma closing_trades_fill_what_is_held_witness :
  ∃ pf',
    execute_trade
      (run demo_portfolio [mkTrade "X" "buy" (Qc_of_Z 30) (Qc_of_Z 20)])
      "X" "sell" (Qc_of_Z 50) (Qc_of_Z 25) = Returned (pf', 30%Z).
Proof.
  destruct (proj1 (closing_trades_fill_what_is_held
              (run demo_portfolio [mkTrade "X" "buy" (Qc_of_Z 30) (Qc_of_Z 20)])
              "X" (Qc_of_Z 50) (Qc_of_Z 25)
              (mkPosition 30 0 (Qc_of_Z 20) 0 0) zero_gains
              ltac:(compute_done) ltac:(compute_done) ltac:(compute_done)))
    as (pf' & position' & E & _).
  exists pf'. exact E.
Defined.



Lemma Qcmult_pos (x y : Qc) : 0 < x → 0 < y → 0 < x * y.
Proof. intros Hx Hy. qc2q. nra. Qed.





(** ** The effect of one call on the books *)

(** A call either changes nothing, or replaces the position of its
    instrument (and, for a closing trade, that instrument's realized gains by
    an amount [dg]) in a way that keeps cash plus pledged margin plus the
    position's worth at the trade price, and moves cash plus pledged margin
    plus the cost of the open lots by [dg]. *)
Lemma execute_trade_effect (pf : Portfolio) (ticker action : string)
    (quantity current_price : Qc) :
  let pf' := after pf (execute_trade pf ticker action quantity current_price) in
  pf' = pf ∨
  ∃ position position' dg,
    positions pf !! ticker = Some position ∧
    positions pf' = <[ticker := position']> (positions pf) ∧
    margin_requirement pf' = margin_requirement pf ∧
    (dg = 0 ∧ realized_gains pf' = realized_gains pf ∨
     ∃ g g', realized_gains pf !! ticker = Some g ∧
             realized_gains pf' = <[ticker := g']> (realized_gains pf) ∧
             gains_total g' = gains_total g + dg) ∧
    cash pf' + margin_used pf' + Qc_of_Z (long position' - short position') * current_price
      = cash pf + margin_used pf + Qc_of_Z (long position - short position) * current_price ∧
    (position_ok position →
     cash pf' + margin_used pf' + position_book position'
       = cash pf + margin_used pf + position_book position + dg).
Proof.
  intros pf'. subst pf'. unfold execute_trade.
  destruct (decide (quantity ≤ 0)) as [Hq|Hq]; [by left|]. cbv zeta.
  pose proof (int_of_positive _ Hq) as Hk.
  unfold getitem. destruct (positions pf !! ticker) as [position|] eqn:Hpos; [|by left].
  cbn [mbind outcome_bind].
  destruct (decide (action = "buy")) as [_|_].
  { destruct (buy_shape pf ticker position (int quantity) current_price Hk)
      as [E|(k & Hk' & E)]; rewrite E; [by left|]. right. unfold after, fill_buy. cbv zeta.
    eexists position, _, 0. split; [done|]. split; [reflexivity|]. split; [done|].
    split; [by left|]. unfold position_book.
    destruct (decide (0 < long position + k)%Z) as [Hlk|Hlk]; fields.
    - rewrite !Z2Qc_inj_sub, !Z2Qc_inj_add. split; [ring|]. intros _.
      field. rewrite <-Z2Qc_inj_add. apply Qc_of_Z_neq_0. lia.
    - rewrite !Z2Qc_inj_sub, !Z2Qc_inj_add. split; [ring|].
      intros (Hl & _). assert (k = 0%Z) as -> by lia. rewrite Z2Qc_inj_0. ring. }
  destruct (decide (action = "sell")) as [_|_].
  { unfold sell, getitem. cbv zeta.
    destruct (decide (0 < _)%Z) as [Hfill|Hfill]; [|by left].
    destruct (realized_gains pf !! ticker) as [g|] eqn:Hg; [|by left].
    cbn [mbind outcome_bind after]. right.
    set (fill := (int quantity `min` long position)%Z) in *.
    rewrite !(decide_True (P := (0 < long position)%Z)) by lia.
    eexists position, _, ((current_price - long_cost_basis position) * Qc_of_Z fill).
    split; [done|]. split; [fields; apply insert_insert_eq|]. split; [done|].
    split. { right. eexists g, _. split; [done|]. split; [reflexivity|].
             unfold gains_total. fields. ring. }
    unfold position_book.
    destruct (decide (_ = 0%Z)) as [E|E]; fields.
    - rewrite !Z2Qc_inj_sub. split; [ring|]. intros _.
      replace (Qc_of_Z (long position)) with (Qc_of_Z fill) by (f_equal; lia). ring.
    - rewrite !Z2Qc_inj_sub. split; [ring|]. intros _. ring. }
  destruct (decide (action = "short")) as [_|_].
  { destruct (short_sell_shape pf ticker position (int quantity) current_price Hk)
      as [E|(k & Hk' & E)]; rewrite E; [by left|]. right. unfold after, fill_short. cbv zeta.
    eexists position, _, 0. split; [done|]. split; [reflexivity|]. split; [done|].
    split; [by left|]. unfold position_book.
    destruct (decide (0 < short position + k)%Z) as [Hsk|Hsk]; fields.
    - rewrite !Z2Qc_inj_sub, !Z2Qc_inj_add. split; [ring|]. intros _.
      field. rewrite <-Z2Qc_inj_add. apply Qc_of_Z_neq_0. lia.
    - rewrite !Z2Qc_inj_sub, !Z2Qc_inj_add. split; [ring|].
      intros (_ & Hs & _). assert (k = 0%Z) as -> by lia. rewrite Z2Qc_inj_0. ring. }
  destruct (decide (action = "cover")) as [_|_]; [|by left].
  unfold cover, getitem, margin_to_release. cbv zeta.
  destruct (decide (0 < _)%Z) as [Hfill|Hfill]; [|by left].
  destruct (realized_gains pf !! ticker) as [g|] eqn:Hg; [|by left].
  cbn [mbind outcome_bind after]. right.
  set (fill := (int quantity `min` short position)%Z) in *.
  rewrite !(decide_True (P := (0 < short position)%Z)) by lia.
  eexists position, _, ((short_cost_basis position - current_price) * Qc_of_Z fill).
  split; [done|]. split; [fields; reflexivity|]. split; [done|].
  split. { right. eexists g, _. split; [done|]. split; [reflexivity|].
           unfold gains_total. fields. ring. }
  unfold position_book.
  destruct (decide (_ = 0%Z)) as [E|E]; fields.
  - rewrite !Z2Qc_inj_sub. split; [ring|]. intros _.
    replace (Qc_of_Z (short position)) with (Qc_of_Z fill) by (f_equal; lia). ring.
  - rewrite !Z2Qc_inj_sub. split; [ring|]. intros _. ring.
Qed.

(** X4: a call that returns leaves the margin requirement, the set of
    tracked instruments, and the position and realized gains of every other
    instrument as they were. *)
Theorem execute_trade_touches_one_instrument (pf pf' : Portfolio)
    (ticker action : string) (quantity current_price : Qc) (n : Z) :
  execute_trade pf ticker action quantity current_price = Returned (pf', n) →
  margin_requirement pf' = margin_requirement pf ∧
  dom (positions pf') = dom (positions pf) ∧
  dom (realized_gains pf') = dom (realized_gains pf) ∧
  ∀ other, other ≠ ticker →
    positions pf' !! other = positions pf !! other ∧
    realized_gains pf' !! other = realized_gains pf !! other.
Proof.
  intros E. pose proof (execute_trade_effect pf ticker action quantity current_price) as H.
  rewrite E in H. cbn [after] in H.
  destruct H as [->|(position & position' & dg & Hpos & Hp & Hm & Hg & _)]; [done|].
  split; [done|]. rewrite Hp.
  split. { apply dom_insert_lookup_L. by exists position. }
  destruct Hg as [[_ ->]|(g & g' & Hg & -> & _)].
  - split; [done|]. intros other Hne. by rewrite lookup_insert_ne.
  - split. { apply dom_insert_lookup_L. by exists g. }
    intros other Hne. by rewrite !lookup_insert_ne.
Qed.

Lemma execute_trade_touches_one_instrument_witness :
  let pf := init_portfolio ["X"; "Y"] (Qc_of_Z 1000) 0 in
  let pf' := after pf (execute_trade pf "X" "buy" (Qc_of_Z 10) (Qc_of_Z 20)) in
  execute_trade pf "X" "buy" (Qc_of_Z 10) (Qc_of_Z 20) = Returned (pf', 10%Z) ∧
  positions pf' !! "Y" = Some zero_position.
Proof.
  intros pf pf'.
  assert (E : execute_trade pf "X" "buy" (Qc_of_Z 10) (Qc_of_Z 20) = Returned (pf', 10%Z))
    by compute_done.
  split; [exact E|].
  destruct (execute_trade_touches_one_instrument _ _ _ _ _ _ _ E) as (_ & _ & _ & H).
  destruct (H "Y" ltac:(done)) as [-> _]. compute_done.
Defined.

(** ** The instruments a run tracks *)

Lemma dict_of_tickers_is_Some {V} (v : V) tickers ticker :
  is_Some (dict_of_tickers v tickers !! ticker) ↔ ticker ∈ tickers.
Proof.
  induction tickers as [|t ts IH]; simpl.
  - rewrite lookup_empty. split; [by intros [? ?]|by intros ?%elem_of_nil].
  - rewrite elem_of_cons. destruct (decide (t = ticker)) as [->|Hne].
    + rewrite lookup_insert_eq. split; [by left|by eexists].
    + rewrite lookup_insert_ne by done. rewrite IH.
      split; [by right|]. intros [E|?]; [by subst|done].
Qed.

Lemma step_dom pf t :
  dom (positions (step pf t)) = dom (positions pf) ∧
  dom (realized_gains (step pf t)) = dom (realized_gains pf).
Proof.
  unfold step, call.
  destruct (execute_trade _ _ _ _ _) as [[pf' n]|] eqn:E; [|done].
  by destruct (execute_trade_touches_one_instrument _ _ _ _ _ _ _ E) as (_ & ? & ? & _).
Qed.

Lemma run_dom pf ts :
  dom (positions (run pf ts)) = dom (positions pf) ∧
  dom (realized_gains (run pf ts)) = dom (realized_gains pf).
Proof.
  revert pf. induction ts as [|t ts IH]; intros pf; [done|]. simpl.
  destruct (IH (step pf t)) as [-> ->]. apply step_dom.
Qed.

Lemma run_margin_requirement pf ts :
  margin_requirement (run pf ts) = margin_requirement pf.
Proof.
  revert pf. induction ts as [|t ts IH]; intros pf; [done|]. simpl.
  by rewrite IH, step_margin_requirement.
Qed.

(** X5: in the portfolio reached from [__init__] by any sequence of calls,
    the tracked instruments are exactly the listed tickers, in [positions]
    and in [realized_gains]; no share count is negative; a side without
    shares has cost basis 0 (and no margin pledged, for the short side); and
    the margin requirement is the initial one. *)
Theorem run_keeps_the_ledger_sound (tickers : list string)
    (initial_capital initial_margin_requirement : Qc) (ts : list Trade) :
  let pf := run (init_portfolio tickers initial_capital initial_margin_requirement) ts in
  (∀ ticker, is_Some (positions pf !! ticker) ↔ ticker ∈ tickers) ∧
  (∀ ticker, is_Some (realized_gains pf !! ticker) ↔ ticker ∈ tickers) ∧
  (∀ ticker position, positions pf !! ticker = Some position →
     (0 ≤ long position)%Z ∧ (0 ≤ short position)%Z ∧
     (long position = 0%Z → long_cost_basis position = 0) ∧
     (short position = 0%Z →
      short_cost_basis position = 0 ∧ short_margin_used position = 0)) ∧
  margin_requirement pf = initial_margin_requirement.
Proof.
  intros pf. subst pf.
  set (pf0 := init_portfolio tickers initial_capital initial_margin_requirement).
  destruct (run_dom pf0 ts) as [Hd1 Hd2].
  split; [|split; [|split]].
  - intros ticker. rewrite <-elem_of_dom, Hd1, elem_of_dom. apply dict_of_tickers_is_Some.
  - intros ticker. rewrite <-elem_of_dom, Hd2, elem_of_dom. apply dict_of_tickers_is_Some.
  - intros ticker position Hpos.
    destruct (run_ledger_ok pf0 ts (init_portfolio_ledger_ok _ _ _)) as [_ Hall].
    destruct (Hall _ _ Hpos) as (Hl & Hs & Hfl & Hfs). done.
  - by rewrite run_margin_requirement.
Qed.

(** ** Sums over the instrument list *)




(** ** Trading at the valuation price *)






(** ** Realized gains and the books *)







(** ** The trading loop of a day *)








Lemma idle_call (pf : Portfolio) (decisions : gmap string PortfolioDecision)
    (ticker : string) (price : Qc) :
  map_Forall (λ _ d, default 0 (decision_quantity d) ≤ 0) decisions →
  execute_trade pf ticker
    (default "hold" (decision_action (default hold (decisions !! ticker))))
    (default 0 (decision_quantity (default hold (decisions !! ticker)))) price
  = Returned (pf, 0%Z).
Proof.
  intros Hidle. unfold execute_trade. rewrite decide_True; [done|].
  destruct (decisions !! ticker) as [d|] eqn:Hd.
  - change (default hold (Some d)) with d. by apply (Hidle ticker d).
  - apply Qcle_refl.
Qed.

Lemma idle_loop (pf : Portfolio) (decisions : gmap string PortfolioDecision)
    (current_prices : gmap string Qc) (listed : list string) (executed : gmap string Z) :
  map_Forall (λ _ d, default 0 (decision_quantity d) ≤ 0) decisions →
  (∀ ticker, ticker ∈ listed → is_Some (current_prices !! ticker)) →
  ∃ executed_trades,
    execute_decisions pf decisions current_prices listed executed
      = Returned (pf, executed_trades) ∧
    ∀ ticker, executed_trades !! ticker =
      if decide (ticker ∈ listed) then Some 0%Z else executed !! ticker.
Proof.
  intros Hidle. revert executed.
  induction listed as [|x l IH]; intros executed Hpriced.
  { exists executed. split; [done|]. intros ticker.
    rewrite decide_False; [done|]. apply not_elem_of_nil. }
  destruct (Hpriced x (list_elem_of_here _ _)) as [price Hprice].
  cbn [execute_decisions]. unfold getitem. rewrite Hprice. cbn [mbind outcome_bind].
  rewrite idle_call by done. cbn [mbind outcome_bind fst snd].
  destruct (IH (<[x := 0%Z]> executed)) as (executed' & E & Hex).
  { intros ticker Hk. apply Hpriced. by apply list_elem_of_further. }
  exists executed'. split; [exact E|]. intros ticker. rewrite Hex.
  destruct (decide (ticker ∈ l)) as [Hin|Hnin].
  - rewrite decide_True; [done|]. by apply list_elem_of_further.
  - destruct (decide (ticker = x)) as [->|Hne].
    + rewrite lookup_insert_eq. rewrite decide_True; [done|]. apply list_elem_of_here.
    + rewrite lookup_insert_ne by done. rewrite decide_False; [done|].
      intros [->|?]%elem_of_cons; done.
Qed.

Lemma idle_loop_unpriced (pf : Portfolio) (decisions : gmap string PortfolioDecision)
    (current_prices : gmap string Qc) (listed : list string) (executed : gmap string Z)
    (ticker : string) :
  map_Forall (λ _ d, default 0 (decision_quantity d) ≤ 0) decisions →
  ticker ∈ listed → current_prices !! ticker = None →
  ∃ key, execute_decisions pf decisions current_prices listed executed = Raised key.
Proof.
  intros Hidle Hin Hnone. revert executed.
  induction listed as [|x l IH]; intros executed; [by apply elem_of_nil in Hin|].
  cbn [execute_decisions]. unfold getitem.
  destruct (current_prices !! x) as [price|] eqn:Hprice; cbn [mbind outcome_bind];
    [|by eexists].
  rewrite idle_call by done. cbn [mbind outcome_bind fst snd].
  apply elem_of_cons in Hin as [->|Hin]; [congruence|]. by apply IH.
Qed.

(** X9: a day on which no decision asks for shares.  When every decision
    present has no quantity or a quantity that is not positive (an absent
    decision counts as a hold of 0 shares), the loop returns the portfolio
    unchanged with a fill of 0 for every listed ticker, whether or not the
    tickers are tracked; and a listed ticker without a price makes the loop
    raise [KeyError]. *)
Theorem idle_day_changes_nothing (pf : Portfolio)
    (decisions : gmap string PortfolioDecision) (current_prices : gmap string Qc)
    (listed : list string) :
  map_Forall (λ _ d, default 0 (decision_quantity d) ≤ 0) decisions →
  ((∀ ticker, ticker ∈ listed → is_Some (current_prices !! ticker)) →
   ∃ executed_trades,
     execute_decisions pf decisions current_prices listed ∅ = Returned (pf, executed_trades) ∧
     ∀ ticker, executed_trades !! ticker = if decide (ticker ∈ listed) then Some 0%Z else None) ∧
  (∀ ticker, ticker ∈ listed → current_prices !! ticker = None →
   ∃ key, execute_decisions pf decisions current_prices listed ∅ = Raised key).
Proof.
  intros Hidle. split.
  - intros Hpriced.
    destruct (idle_loop pf decisions current_prices listed ∅ Hidle Hpriced)
      as (executed' & E & Hex).
    exists executed'. split; [exact E|]. intros ticker. rewrite Hex.
    by rewrite lookup_empty.
  - intros ticker. by apply idle_loop_unpriced.
Qed.

Lemma idle_day_changes_nothing_witness :
  let decisions : gmap string PortfolioDecision :=
    {["X" := mkDecision (Some "buy") (Some 0); "Y" := mkDecision None None]} in
  (∃ executed_trades,
     execute_decisions demo_portfolio decisions {["X" := Qc_of_Z 30; "Y" := Qc_of_Z 2]}
       ["X"; "Y"] ∅ = Returned (demo_portfolio, executed_trades)) ∧
  (∃ key,
     execute_decisions demo_portfolio decisions {["X" := Qc_of_Z 30]} ["X"; "Y"] ∅
       = Raised key).
Proof.
  intros decisions.
  assert (Hidle : map_Forall (λ _ d, default 0 (decision_quantity d) ≤ 0) decisions)
    by compute_done.
  split.
  - destruct (proj1 (idle_day_changes_nothing demo_portfolio decisions
                {["X" := Qc_of_Z 30; "Y" := Qc_of_Z 2]} ["X"; "Y"] Hidle))
      as (executed & E & _).
    + apply (proj1 (Forall_forall _ _)). compute_done.
    + by exists executed.
  - apply (proj2 (idle_day_changes_nothing demo_portfolio decisions
             {["X" := Qc_of_Z 30]} ["X"; "Y"] Hidle) "Y"); compute_done.
Defined.

(** ** A new portfolio *)

Lemma dict_of_tickers_lookup_decide {V} (v : V) tickers ticker :
  dict_of_tickers v tickers !! ticker = if decide (ticker ∈ tickers) then Some v else None.
Proof.
  destruct (decide (ticker ∈ tickers)) as [Hin|Hnin].
  - apply (dict_of_tickers_is_Some v) in Hin as [x Hx].
    by rewrite (dict_of_tickers_lookup _ _ _ _ Hx) in Hx.
  - apply eq_None_not_Some. intros H. by apply dict_of_tickers_is_Some in H.
Qed.

Lemma dict_of_tickers_cons {V} (v : V) ticker tickers :
  dict_of_tickers v (ticker :: tickers) = <[ticker := v]> (dict_of_tickers v tickers).
Proof. reflexivity. Qed.

(** X10: [create_portfolio] builds the portfolio [Backtester.__init__]
    builds: the given cash and margin requirement, no margin used, and
    exactly the listed tickers tracked (a ticker listed twice is tracked
    once), each with an empty position and zero realized gains; [margin_used]
    is the sum of the pledged margins and every position satisfies the ledger
    invariant. *)
Theorem create_portfolio_tracks_the_listed_tickers (initial_cash margin_requirement : Qc)
    (tickers : list string) :
  let pf := create_portfolio initial_cash margin_requirement tickers in
  pf = init_portfolio tickers initial_cash margin_requirement ∧
  (∀ ticker, positions pf !! ticker =
     if decide (ticker ∈ tickers) then Some zero_position else None) ∧
  (∀ ticker, realized_gains pf !! ticker =
     if decide (ticker ∈ tickers) then Some zero_gains else None) ∧
  size (positions pf) = length (remove_dups tickers) ∧
  margin_used pf = total_short_margin pf.
Proof.
  intros pf. split; [done|].
  split; [intros ticker; apply dict_of_tickers_lookup_decide|].
  split; [intros ticker; apply dict_of_tickers_lookup_decide|].
  split; [|apply (init_portfolio_ledger_ok tickers initial_cash margin_requirement)].
  subst pf. cbn [positions create_portfolio].
  induction tickers as [|t ts IH]; [done|].
  rewrite dict_of_tickers_cons. cbn [remove_dups].
  destruct (decide_rel elem_of t ts) as [Hin|Hnin].
  - rewrite insert_id; [exact IH|].
    rewrite (dict_of_tickers_lookup_decide zero_position ts t). by rewrite decide_True.
  - rewrite map_size_insert_None.
    + cbn [length]. by rewrite <-IH.
    + rewrite (dict_of_tickers_lookup_decide zero_position ts t). by rewrite decide_False.
Qed.

(** ** More on the cache *)

Section cache_more.
Context {V : Type} `{EqDecision V}.
Implicit Types (items cached data : list (gmap string V)) (key_field : string).

(** The setter of a kind merges into the list stored under the ticker and
    stores the result there. *)
Lemma set_merges (k : Cache.kind) (self : Cache.t) (ticker : string) data :
  Cache.set k self ticker data =
    merged ← Cache._merge_data (Cache.get k self ticker) data (Cache.key_field k);
    Returned (match k with
              | Cache.Prices =>
                  Cache.mk (<[ticker := merged]> (Cache._prices_cache self))
                    (Cache._financial_metrics_cache self) (Cache._line_items_cache self)
                    (Cache._insider_trades_cache self) (Cache._company_news_cache self)
              | Cache.FinancialMetrics =>
                  Cache.mk (Cache._prices_cache self)
                    (<[ticker := merged]> (Cache._financial_metrics_cache self))
                    (Cache._line_items_cache self)
                    (Cache._insider_trades_cache self) (Cache._company_news_cache self)
              | Cache.LineItems =>
                  Cache.mk (Cache._prices_cache self) (Cache._financial_metrics_cache self)
                    (<[ticker := merged]> (Cache._line_items_cache self))
                    (Cache._insider_trades_cache self) (Cache._company_news_cache self)
              | Cache.InsiderTrades =>
                  Cache.mk (Cache._prices_cache self) (Cache._financial_metrics_cache self)
                    (Cache._line_items_cache self)
                    (<[ticker := merged]> (Cache._insider_trades_cache self))
                    (Cache._company_news_cache self)
              | Cache.CompanyNews =>
                  Cache.mk (Cache._prices_cache self) (Cache._financial_metrics_cache self)
                    (Cache._line_items_cache self) (Cache._insider_trades_cache self)
                    (<[ticker := merged]> (Cache._company_news_cache self))
              end).
Proof. by destruct k. Qed.

Lemma set_stores (k : Cache.kind) (self : Cache.t) (ticker : string) data merged :
  Cache._merge_data (Cache.get k self ticker) data (Cache.key_field k) = Returned merged →
  ∃ self',
    Cache.set k self ticker data = Returned self' ∧
    Cache.get k self' ticker = Some merged ∧
    (∀ ticker', ticker' ≠ ticker → Cache.get k self' ticker' = Cache.get k self ticker') ∧
    (∀ k' ticker', k' ≠ k → Cache.get k' self' ticker' = Cache.get k' self ticker').
Proof.
  intros E. rewrite set_merges, E. cbn [mbind outcome_bind].
  eexists. split; [reflexivity|].
  destruct k; (split; [apply lookup_insert_eq|]);
    (split; [intros ticker' Hne; by apply lookup_insert_ne|]);
    intros k' ticker' Hk'; by destruct k'.
Qed.

Lemma key_occurs_in_stored key_field cached data r :
  r ∈ data →
  Cache.key_occurs key_field
    (cached ++ filter (λ r, ¬ Cache.key_occurs key_field cached r) data)%list r.
Proof.
  intros Hin. unfold Cache.key_occurs at 1, Cache.keys. rewrite fmap_app, elem_of_app.
  destruct (decide (Cache.key_occurs key_field cached r)) as [Hc|Hc]; [by left|].
  right. apply list_elem_of_fmap. exists r. split; [done|].
  by apply list_elem_of_filter.
Qed.

Lemma filter_none {A} (P : A → Prop) `{∀ x, Decision (P x)} (l : list A) :
  Forall (λ x, ¬ P x) l → filter P l = [].
Proof.
  induction 1 as [|x l Hx _ IH]; [done|]. by rewrite filter_cons, decide_False, IH.
Qed.

Lemma stored_again key_field cached data :
  let stored := (cached ++ filter (λ r, ¬ Cache.key_occurs key_field cached r) data)%list in
  Forall (λ r, is_Some (r !! key_field)) (cached ++ data)%list →
  Cache._merge_data (Some stored) data key_field = Returned stored.
Proof.
  intros stored Hkeys. apply Forall_app in Hkeys as [Hc Hd].
  rewrite (merge_data_returns key_field (Some stored) data).
  - cbn [default from_option]. unfold id. rewrite filter_none; [by rewrite app_nil_r|].
    apply Forall_forall. intros r Hr Hn. apply Hn. by apply key_occurs_in_stored.
  - intros _. cbn [default from_option]. unfold id. apply Forall_app. split; [|done].
    apply Forall_app. split; [done|]. apply Forall_forall. intros r Hr.
    apply list_elem_of_filter in Hr as [_ Hr]. by apply (proj1 (Forall_forall _ _) Hd).
Qed.

(** X11: setting the same batch twice stores what setting it once stores:
    the second call finds every key of the batch in the cache, appends
    nothing, and gives back the same cache. *)
Theorem set_twice_is_set_once (k : Cache.kind) (self : Cache.t) (ticker : string) data :
  let cached := default [] (Cache.get k self ticker) in
  Forall (λ r, is_Some (r !! Cache.key_field k)) (cached ++ data)%list →
  ∃ self',
    Cache.set k self ticker data = Returned self' ∧
    Cache.set k self' ticker data = Returned self'.
Proof.
  intros cached Hkeys.
  pose proof (merge_data_returns (Cache.key_field k) (Cache.get k self ticker) data
                (λ _, Hkeys)) as E1.
  pose proof (stored_again (Cache.key_field k) cached data Hkeys) as E2.
  fold cached in E1. cbv zeta in E1, E2. revert E1 E2.
  generalize (cached ++ filter (λ r, ¬ Cache.key_occurs (Cache.key_field k) cached r) data)%list.
  intros stored E1 E2.
  rewrite set_merges, E1. cbn [mbind outcome_bind]. eexists. split; [reflexivity|].
  rewrite set_merges.
  destruct k; cbn [Cache.get];
    unfold Cache.get_prices, Cache.get_financial_metrics, Cache.get_line_items,
      Cache.get_insider_trades, Cache.get_company_news;
    cbn [Cache._prices_cache Cache._financial_metrics_cache Cache._line_items_cache
         Cache._insider_trades_cache Cache._company_news_cache];
    rewrite lookup_insert_eq, E2; cbn [mbind outcome_bind];
    by rewrite insert_insert_eq.
Qed.

(** X12: a set operation of one kind leaves what the other four kinds store
    as it was, under every key. *)
Theorem set_leaves_other_kinds (k k' : Cache.kind) (self self' : Cache.t)
    (ticker ticker' : string) data :
  Cache.set k self ticker data = Returned self' →
  k' ≠ k →
  Cache.get k' self' ticker' = Cache.get k' self ticker'.
Proof.
  rewrite set_merges.
  destruct (Cache._merge_data _ _ _) as [merged|]; [|done].
  cbn [mbind outcome_bind]. intros [= <-] Hne. by destruct k, k'.
Qed.

(** X13: nothing is cached before the first set, and the first set for a key
    stores the batch as it is: no record is examined, so repeats and records
    without the dedup field are taken as they come; an empty stored list
    counts as nothing cached. *)
Theorem first_set_stores_the_batch (k : Cache.kind) (self : Cache.t) (ticker : string) data :
  Cache.get k (Cache.empty (V := V)) ticker = None ∧
  (default [] (Cache.get k self ticker) = [] →
   ∃ self', Cache.set k self ticker data = Returned self' ∧
            Cache.get k self' ticker = Some data).
Proof.
  split; [by destruct k|]. intros Hnone.
  assert (E : Cache._merge_data (Cache.get k self ticker) data (Cache.key_field k)
              = Returned data).
  { destruct (Cache.get k self ticker) as [[|r l]|]; done. }
  destruct (set_stores k self ticker data data E) as (self' & Hs & Hg & _).
  by exists self'.
Qed.

(** X14: a set operation loses no key and invents no record: every record of
    the batch has its dedup key among those of the stored list, every stored
    record was cached or is in the batch, and the stored list is at least as
    long as the cached one and at most as long as the two together. *)
Theorem set_loses_no_key (k : Cache.kind) (self : Cache.t) (ticker : string) data :
  let cached := default [] (Cache.get k self ticker) in
  (cached ≠ [] →
   Forall (λ r, is_Some (r !! Cache.key_field k)) (cached ++ data)%list) →
  ∃ self' stored,
    Cache.set k self ticker data = Returned self' ∧
    Cache.get k self' ticker = Some stored ∧
    (∀ r, r ∈ data → Cache.key_occurs (Cache.key_field k) stored r) ∧
    (∀ r, r ∈ stored → r ∈ cached ∨ r ∈ data) ∧
    (length cached ≤ length stored ≤ length cached + length data)%nat.
Proof.
  intros cached Hkeys.
  pose proof (merge_data_returns (Cache.key_field k) (Cache.get k self ticker) data Hkeys)
    as E.
  fold cached in E. cbv zeta in E.
  destruct (set_stores k self ticker data _ E) as (self' & Hs & Hg & _).
  eexists self', _. split; [exact Hs|]. split; [exact Hg|]. split; [|split].
  - intros r Hr. by apply key_occurs_in_stored.
  - intros r Hr. apply elem_of_app in Hr as [Hr|Hr]; [by left|right].
    by apply list_elem_of_filter in Hr as [_ Hr].
  - rewrite length_app.
    pose proof (length_filter (λ r, ¬ Cache.key_occurs (Cache.key_field k) cached r) data).
    lia.
Qed.

Lemma keys_of_raises key_field items :
  Exists (λ r, r !! key_field = None) items →
  Cache.keys_of items key_field = Raised key_field.
Proof.
  induction 1 as [r items Hr|r items _ IH]; cbn [Cache.keys_of]; unfold getitem.
  - by rewrite Hr.
  - destruct (r !! key_field); [|done]. cbn [mbind outcome_bind]. by rewrite IH.
Qed.

Lemma keys_of_outcome key_field items :
  (∃ ks, Cache.keys_of items key_field = Returned ks) ∨
  Cache.keys_of items key_field = Raised key_field.
Proof.
  induction items as [|r items IH]; cbn [Cache.keys_of]; [left; by eexists|].
  unfold getitem. destruct (r !! key_field); [|by right]. cbn [mbind outcome_bind].
  destruct IH as [[ks ->] | ->]; [left; by eexists|by right].
Qed.

Lemma not_yet_cached_raises key_field (ks : list V) data :
  Exists (λ r, r !! key_field = None) data →
  Cache.not_yet_cached ks data key_field = Raised key_field.
Proof.
  induction 1 as [r data Hr|r data _ IH]; cbn [Cache.not_yet_cached]; unfold getitem.
  - by rewrite Hr.
  - destruct (r !! key_field); [|done]. cbn [mbind outcome_bind]. by rewrite IH.
Qed.

(** X15: once something is cached under the key, a record without the dedup
    field, cached or new, makes the set operation raise [KeyError] on that
    field. *)
Theorem set_raises_on_a_missing_field (k : Cache.kind) (self : Cache.t) (ticker : string)
    data :
  let cached := default [] (Cache.get k self ticker) in
  cached ≠ [] →
  Exists (λ r, r !! Cache.key_field k = None) (cached ++ data)%list →
  Cache.set k self ticker data = Raised (Cache.key_field k).
Proof.
  intros cached Hne Hex. rewrite set_merges. subst cached.
  destruct (Cache.get k self ticker) as [[|r items]|]; [done| |done].
  cbn [default from_option] in Hex. unfold id in Hex.
  cbn [Cache._merge_data].
  apply Exists_app in Hex as [Hex|Hex].
  - by rewrite (keys_of_raises _ _ Hex).
  - destruct (keys_of_outcome (Cache.key_field k) (r :: items)) as [[ks ->] | ->]; [|done].
    cbn [mbind outcome_bind]. by rewrite (not_yet_cached_raises _ _ _ Hex).
Qed.
End cache_more.

Lemma set_twice_is_set_once_witness :
  ∃ self',
    Cache.set_prices demo_cache "AAPL" [bar "2024-01-03" "190"; bar "2024-01-04" "181"]
      = Returned self' ∧
    Cache.set_prices self' "AAPL" [bar "2024-01-03" "190"; bar "2024-01-04" "181"]
      = Returned self'.
Proof.
  apply (set_twice_is_set_once Cache.Prices demo_cache "AAPL"
           [bar "2024-01-03" "190"; bar "2024-01-04" "181"]).
  compute_done.
Defined.

Lemma set_leaves_other_kinds_witness :
  Cache.get Cache.CompanyNews
    (Cache.mk (V := string) {["AAPL" := [bar "2024-01-02" "185"]]} ∅ ∅ ∅ {["AAPL" := []]})
    "AAPL"
  = Cache.get Cache.CompanyNews (Cache.mk (V := string) ∅ ∅ ∅ ∅ {["AAPL" := []]}) "AAPL".
Proof.
  apply (set_leaves_other_kinds Cache.Prices Cache.CompanyNews _ _ "AAPL" "AAPL"
           [bar "2024-01-02" "185"]); [compute_done|done].
Defined.

Lemma first_set_stores_the_batch_witness :
  ∃ self',
    Cache.set_company_news (Cache.mk (V := string) ∅ ∅ ∅ ∅ {["AAPL" := []]}) "AAPL"
      [bar "2024-01-02" "185"; bar "2024-01-02" "186"] = Returned self' ∧
    Cache.get_company_news self' "AAPL"
      = Some [bar "2024-01-02" "185"; bar "2024-01-02" "186"].
Proof.
  apply (proj2 (first_set_stores_the_batch Cache.CompanyNews
                  (Cache.mk (V := string) ∅ ∅ ∅ ∅ {["AAPL" := []]}) "AAPL"
                  [bar "2024-01-02" "185"; bar "2024-01-02" "186"])).
  compute_done.
Defined.

Lemma set_loses_no_key_witness :
  ∃ self' stored,
    Cache.set_prices demo_cache "AAPL" [bar "2024-01-03" "190"; bar "2024-01-04" "181"]
      = Returned self' ∧
    Cache.get_prices self' "AAPL" = Some stored ∧
    length stored = 3%nat.
Proof.
  destruct (set_loses_no_key Cache.Prices demo_cache "AAPL"
              [bar "2024-01-03" "190"; bar "2024-01-04" "181"])
    as (self' & stored & Hs & Hg & _ & _ & _); [intros _; compute_done|].
  exists self', stored. split; [exact Hs|]. split; [exact Hg|].
  assert (E : Cache.get_prices
                (match Cache.set_prices demo_cache "AAPL"
                         [bar "2024-01-03" "190"; bar "2024-01-04" "181"] with
                 | Returned c => c | Raised _ => demo_cache end) "AAPL"
              = Some [bar "2024-01-02" "185"; bar "2024-01-03" "184"; bar "2024-01-04" "181"])
    by compute_done.
  cbn [Cache.set] in Hs. rewrite Hs in E. cbn [Cache.get] in Hg. rewrite Hg in E.
  by injection E as ->.
Defined.

Lemma set_raises_on_a_missing_field_witness :
  Cache.set_prices demo_cache "AAPL" [{["close" := "190"]}] = Raised "time".
Proof.
  apply (set_raises_on_a_missing_field Cache.Prices demo_cache "AAPL" [{["close" := "190"]}]);
    compute_done.
Defined.

(** ** The drawdown block *)

Lemma Qcdiv_pos (x y : Qc) : 0 < x → 0 < y → 0 < x / y.
Proof. intros Hx Hy. apply Qcmult_pos; [done|by apply Qcinv_pos]. Qed.

Lemma fall_bounds (v m : Qc) : 0 < v → v ≤ m → - (1) < (v - m) / m ∧ (v - m) / m ≤ 0.
Proof.
  intros Hv Hm. assert (Hp : 0 < m) by (eapply Qclt_le_trans; eauto).
  assert (E : (v - m) / m = v / m - 1) by (field; by apply Qc_pos_neq_0).
  rewrite E. clear E.
  pose proof (Qcdiv_pos _ _ Hv Hp) as H1. pose proof (Qcdiv_le_1 _ _ Hm Hp) as H2.
  revert H1 H2. generalize (v / m). intros x H1 H2. qc2q. split; lra.
Qed.

Lemma fall_from_lower_peak (v p m : Qc) :
  0 < v → 0 < p → p ≤ m → (v - m) / m ≤ (v - p) / p.
Proof.
  intros Hv Hp Hm. assert (Hm0 : 0 < m) by (eapply Qclt_le_trans; eauto).
  assert (E : (v - p) / p = (v - m) / m + v * (m - p) / (p * m)).
  { field. split; by apply Qc_pos_neq_0. }
  rewrite E.
  assert (H : 0 ≤ v * (m - p) / (p * m)).
  { apply Qcdiv_nonneg; [|by apply Qcmult_pos].
    apply Qcmult_nonneg; [by apply Qclt_le_weak|]. clear E. qc2q. lra. }
  revert H. generalize (v * (m - p) / (p * m)) ((v - m) / m). intros a b H. clear E.
  qc2q. lra.
Qed.

Lemma no_fall_inv (v p : Qc) : 0 < p → 0 ≤ (v - p) / p → p ≤ v.
Proof.
  intros Hp H. assert (E : v = (v - p) / p * p + p) by (field; by apply Qc_pos_neq_0).
  rewrite E. revert H. generalize ((v - p) / p). intros x H. clear E. qc2q. nra.
Qed.

Lemma cummax_from_length peak values :
  length (cummax_from peak values) = length values.
Proof.
  revert peak. induction values as [|v rest IH]; intros peak; cbn [cummax_from length];
    [done|]. by rewrite IH.
Qed.

Lemma cummax_from_spec peak values i m :
  cummax_from peak values !! i = Some m →
  (peak = Some m ∨ ∃ j, (j ≤ i)%nat ∧ values !! j = Some m) ∧
  (∀ p, peak = Some p → p ≤ m) ∧
  (∀ j v, (j ≤ i)%nat → values !! j = Some v → v ≤ m).
Proof.
  revert peak i. induction values as [|v rest IH]; intros peak i; [done|].
  cbn [cummax_from].
  set (peak' := match peak with
                | Some peak => if decide (peak ≤ v) then v else peak
                | None => v
                end).
  assert (F1 : peak' = v ∨ peak = Some peak').
  { subst peak'. destruct peak as [p|]; [|by left]. destruct (decide (p ≤ v)); auto. }
  assert (F2 : v ≤ peak').
  { subst peak'. destruct peak as [p|]; [|apply Qcle_refl].
    destruct (decide (p ≤ v)) as [|Hn]; [apply Qcle_refl|].
    by apply Qclt_le_weak, Qcnot_le_lt. }
  assert (F3 : ∀ p, peak = Some p → p ≤ peak').
  { intros p ->. subst peak'. destruct (decide (p ≤ v)); [done|apply Qcle_refl]. }
  clearbody peak'. destruct i as [|i]; cbn [lookup list_lookup].
  - intros [= <-]. split; [|split].
    + destruct F1 as [->|F1]; [right; exists 0%nat; by split|by left].
    + exact F3.
    + intros [|j] v' Hj; [|lia]. by intros [= <-].
  - intros H. apply IH in H as (H1 & H2 & H3).
    specialize (H2 _ eq_refl). split; [|split].
    + destruct H1 as [[= <-]|(j & Hj & Hm)].
      * destruct F1 as [->|F1]; [right; exists 0%nat; split; [lia|done]|by left].
      * right. exists (S j). split; [lia|done].
    + intros p Hp. eapply Qcle_trans; [by apply F3|done].
    + intros [|j] v' Hj; cbn [lookup list_lookup].
      * intros [= <-]. by eapply Qcle_trans.
      * apply H3. lia.
Qed.

Lemma cummax_spec values i m :
  cummax values !! i = Some m →
  (∃ j, (j ≤ i)%nat ∧ values !! j = Some m) ∧
  (∀ j v, (j ≤ i)%nat → values !! j = Some v → v ≤ m).
Proof.
  intros H. apply cummax_from_spec in H as ([?|H1] & _ & H3); [done|]. by split.
Qed.

Lemma drawdown_length portfolio_values :
  length (drawdown portfolio_values) = length portfolio_values.
Proof.
  unfold drawdown, cummax. rewrite length_zip_with, cummax_from_length, length_fmap. lia.
Qed.

Lemma drawdown_lookup portfolio_values i d x :
  drawdown portfolio_values !! i = Some (d, x) ↔
  ∃ v m, portfolio_values !! i = Some (d, v) ∧
         cummax portfolio_values.*2 !! i = Some m ∧ x = (v - m) / m.
Proof.
  unfold drawdown. rewrite lookup_zip_with_Some. split.
  - intros ([d' v] & m & [= -> ->] & Hr & Hm). by exists v, m.
  - intros (v & m & Hr & Hm & ->). by exists (d, v), m.
Qed.

Lemma drawdown_of_row portfolio_values i d v :
  portfolio_values !! i = Some (d, v) →
  ∃ m, cummax portfolio_values.*2 !! i = Some m ∧
       drawdown portfolio_values !! i = Some (d, (v - m) / m).
Proof.
  intros Hr.
  destruct (lookup_lt_is_Some_2 (cummax portfolio_values.*2) i) as [m Hm].
  { unfold cummax. rewrite cummax_from_length, length_fmap. by eapply lookup_lt_Some. }
  exists m. split; [done|]. apply drawdown_lookup. by exists v, m.
Qed.

Lemma idxmin_None series : idxmin series = None → series = [].
Proof.
  destruct series as [|[d x] rest]; [done|]. cbn [idxmin].
  destruct (idxmin rest) as [[d' x']|]; [|done]. by destruct (decide (x' < x)).
Qed.

Lemma idxmin_spec series d x :
  idxmin series = Some (d, x) →
  ∃ k, series !! k = Some (d, x) ∧
       (∀ i d' x', series !! i = Some (d', x') → x ≤ x') ∧
       (∀ i d' x', (i < k)%nat → series !! i = Some (d', x') → x < x').
Proof.
  revert d x. induction series as [|[d0 x0] rest IH]; intros d x; [done|].
  cbn [idxmin]. destruct (idxmin rest) as [[d1 x1]|] eqn:E.
  - destruct (IH _ _ eq_refl) as (k & Hk & Hmin & Hfirst).
    destruct (decide (x1 < x0)) as [Hlt|Hge]; intros [= <- <-].
    + exists (S k). split; [done|]. split.
      * intros [|i] d' x'; cbn [lookup list_lookup]; [|by apply Hmin].
        intros [= <- <-]. by apply Qclt_le_weak.
      * intros [|i] d' x' Hi; cbn [lookup list_lookup].
        -- by intros [= <- <-].
        -- apply Hfirst. lia.
    + exists 0%nat. split; [done|]. split; [|intros; lia].
      intros [|i] d' x'; cbn [lookup list_lookup].
      * intros [= <- <-]. apply Qcle_refl.
      * intros Hi. eapply Qcle_trans; [|by eapply Hmin]. by apply Qcnot_lt_le.
  - apply idxmin_None in E as ->. intros [= <- <-]. exists 0%nat.
    split; [done|]. split; [|intros; lia].
    intros [|i] d' x'; cbn [lookup list_lookup]; [|done].
    intros [= <- <-]. apply Qcle_refl.
Qed.

(** What the block finds on a non-empty series of positive values: the row
    of the least drawdown, its running peak and the earlier row that set
    it. *)
Lemma deepest_day portfolio_values :
  portfolio_values ≠ [] →
  Forall (λ row, 0 < row.2) portfolio_values →
  ∃ k d v j dj m,
    idxmin (drawdown portfolio_values) = Some (d, (v - m) / m) ∧
    drawdown portfolio_values !! k = Some (d, (v - m) / m) ∧
    portfolio_values !! k = Some (d, v) ∧
    (j ≤ k)%nat ∧ portfolio_values !! j = Some (dj, m) ∧
    0 < v ∧ v ≤ m ∧
    (∀ i di vi, portfolio_values !! i = Some (di, vi) →
       ∀ j' dj' vj', (j' ≤ i)%nat → portfolio_values !! j' = Some (dj', vj') →
         (v - m) / m ≤ (vi - vj') / vj') ∧
    (∀ i di xi, (i < k)%nat → drawdown portfolio_values !! i = Some (di, xi) →
       (v - m) / m < xi).
Proof.
  intros Hne Hpos.
  destruct (idxmin (drawdown portfolio_values)) as [[d x]|] eqn:E.
  2:{ apply idxmin_None in E. apply (f_equal length) in E.
      rewrite drawdown_length in E. by destruct portfolio_values. }
  destruct (idxmin_spec _ _ _ E) as (k & Hk & Hmin & Hfirst).
  pose proof Hk as Hd.
  apply drawdown_lookup in Hk as (v & m & Hr & Hm & ->).
  destruct (cummax_spec _ _ _ Hm) as ((j & Hj & Hpeak) & Hle).
  rewrite list_lookup_fmap in Hpeak.
  destruct (portfolio_values !! j) as [[dj vj]|] eqn:Ej; [|done].
  cbn in Hpeak. injection Hpeak as ->.
  exists k, d, v, j, dj, m. split; [done|]. split; [done|]. split; [done|].
  split; [done|]. split; [done|].
  assert (Hv : 0 < v) by exact (proj1 (Forall_lookup _ _) Hpos _ _ Hr).
  split; [done|]. split.
  { apply (Hle k v); [done|]. by rewrite list_lookup_fmap, Hr. }
  split; [|done].
  intros i di vi Hi j' dj' vj' Hj' Hrj'.
  destruct (drawdown_of_row _ _ _ _ Hi) as (mi & Hmi & Hdi).
  eapply Qcle_trans; [by eapply Hmin|].
  destruct (cummax_spec _ _ _ Hmi) as (_ & Hlei).
  apply fall_from_lower_peak.
  - exact (proj1 (Forall_lookup _ _) Hpos _ _ Hi).
  - exact (proj1 (Forall_lookup _ _) Hpos _ _ Hrj').
  - apply (Hlei j' vj'); [done|]. by rewrite list_lookup_fmap, Hrj'.
Qed.

Lemma Qc_percent_le (x y : Qc) : x ≤ y → x * Qc_of_Z 100 ≤ y * Qc_of_Z 100.
Proof. intros H. apply Qcmult_le_compat_r; [done|]. by apply Qc_of_Z_nonneg. Qed.

Lemma Qc_percent_lt (x y : Qc) : x < y → x * Qc_of_Z 100 < y * Qc_of_Z 100.
Proof. intros H. apply Qcmult_lt_compat_r; [|done]. by apply Qc_of_Z_pos. Qed.


(** X17: the drawdown date is set exactly when the series falls somewhere
    below an earlier value; it is then the label of the first day whose
    fall from the running peak is the deepest, and the maximum drawdown is
    negative.  On a series that never falls the date is [None] and the
    maximum drawdown is zero. *)
Theorem max_drawdown_date_is_the_first_deepest_day
    (portfolio_values : list (string * Qc)) :
  Forall (λ row, 0 < row.2) portfolio_values →
  let max_drawdown := (_update_max_drawdown portfolio_values).1 in
  let max_drawdown_date := (_update_max_drawdown portfolio_values).2 in
  (max_drawdown_date = None ↔
     ∀ i j ri rj, (j ≤ i)%nat →
       portfolio_values !! j = Some rj → portfolio_values !! i = Some ri →
       rj.2 ≤ ri.2) ∧
  (max_drawdown_date = None → max_drawdown = 0) ∧
  (∀ date, max_drawdown_date = Some date →
     max_drawdown < 0 ∧
     ∃ i x, drawdown portfolio_values !! i = Some (date, x) ∧
            max_drawdown = x * Qc_of_Z 100 ∧
            ∀ i' date' x', (i' < i)%nat →
              drawdown portfolio_values !! i' = Some (date', x') → x < x').
Proof.
  intros Hpos.
  destruct (decide (portfolio_values = [])) as [->|Hne].
  { cbn. split; [|split]; [|done|done]. split; [|done]. by intros _ [|i] j ri rj. }
  destruct (deepest_day _ Hne Hpos)
    as (k & d & v & j & dj & m & E & Hd & Hk & Hjk & Hj & Hv & Hvm & Hmin & Hfirst).
  unfold _update_max_drawdown. rewrite E. cbn [fst snd].
  destruct (fall_bounds v m Hv Hvm) as [_ Hhi].
  assert (Hm : 0 < m) by (by eapply Qclt_le_trans).
  destruct (decide ((v - m) / m < 0)) as [Hneg|Hnn].
  - split; [|split]; [|done|].
    + split; [done|]. intros Hmono. exfalso.
      specialize (Hmono k j (d, v) (dj, m) Hjk Hj Hk). cbn [snd] in Hmono.
      assert (v = m) as -> by (by apply Qcle_antisym).
      revert Hneg. replace ((m - m) / m) with (Q2Qc 0) by (field; by apply Qc_pos_neq_0).
      intros H0. exact (Qclt_not_le _ _ H0 (Qcle_refl _)).
    + intros date [= <-]. split.
      * apply Qc_percent_lt in Hneg.
        by replace (0 * Qc_of_Z 100) with (Q2Qc 0) in Hneg by ring.
      * by exists k, ((v - m) / m).
  - apply Qcnot_lt_le in Hnn.
    assert (Hz : (v - m) / m = 0) by (by apply Qcle_antisym).
    split; [|split].
    + split; [|done]. intros _ i j' [di vi] [dj' vj'] Hj' Hrj' Hri. cbn [snd].
      apply no_fall_inv; [exact (proj1 (Forall_lookup _ _) Hpos _ _ Hrj')|].
      eapply Qcle_trans; [exact Hnn|]. by eapply Hmin.
    + intros _. rewrite Hz. ring.
    + done.
Qed.
(** ** The day statistics *)

Lemma win_of_positive_base (p v : Qc) : 0 < p → (0 < v / p - 1 ↔ p < v).
Proof.
  intros Hp. set (x := v / p - 1).
  assert (E : v = x * p + p) by (subst x; field; by apply Qc_pos_neq_0).
  clearbody x. rewrite E. clear E. qc2q. split; intros; nra.
Qed.

Lemma win_of_negative_base (p v : Qc) : p < 0 → (0 < v / p - 1 ↔ v < p).
Proof.
  intros Hp. set (x := v / p - 1).
  assert (E : v = x * p + p).
  { subst x. field. intros ->. exact (Qclt_not_le _ _ Hp (Qcle_refl _)). }
  clearbody x. rewrite E. clear E. qc2q. split; intros; nra.
Qed.

Lemma is_win_pct (previous value : Qc) :
  is_win (pct previous value) = true ↔
    (0 < previous ∧ previous < value) ∨
    (previous < 0 ∧ value < previous) ∨
    (previous = 0 ∧ 0 < value).
Proof.
  unfold pct. destruct (decide (previous = 0)) as [->|Hne].
  - destruct (decide (0 < value)) as [Hv|Hv]; cbn [is_win].
    + split; [by right; right|done].
    + assert (Hn : ¬ (0 < 0 ∧ 0 < value) ∧ ¬ (0 < 0 ∧ value < 0)).
      { split; intros [H0 _]; exact (Qclt_not_le _ _ H0 (Qcle_refl _)). }
      destruct (decide (value < 0)); cbn [is_win]; (split; [done|]);
        intros [H|[H|[_ H]]]; tauto.
  - cbn [is_win]. rewrite bool_decide_eq_true.
    destruct (Qclt_le_dec 0 previous) as [Hp|Hp].
    + rewrite (win_of_positive_base _ _ Hp). split; [by left|].
      intros [[_ H]|[[H _]|[H _]]]; [done| |done].
      exfalso. apply (Qclt_not_le _ _ Hp). by apply Qclt_le_weak.
    + assert (Hn : previous < 0).
      { apply Qcnot_le_lt. intros H. apply Hne. by apply Qcle_antisym. }
      rewrite (win_of_negative_base _ _ Hn). split; [by right; left|].
      intros [[H _]|[[_ H]|[H _]]]; [|done|done].
      exfalso. apply (Qclt_not_le _ _ H). by apply Qclt_le_weak.
Qed.

Lemma pct_change_from_length previous values :
  length (pct_change_from previous values) = length values.
Proof.
  revert previous. induction values as [|v rest IH]; intros previous;
    cbn [pct_change_from length]; [done|]. by rewrite IH.
Qed.

Lemma daily_returns_length values : length (daily_returns values) = length values.
Proof.
  unfold daily_returns, fillna, pct_change. rewrite length_fmap.
  destruct values as [|v rest]; [done|]. cbn [length]. by rewrite pct_change_from_length.
Qed.

Lemma pct_change_from_lookup previous values i value :
  values !! i = Some value →
  pct_change_from previous values !! i
  = Some (pct (default previous (match i with O => None | S j => values !! j end)) value).
Proof.
  revert previous i. induction values as [|v rest IH]; intros previous i; [done|].
  cbn [pct_change_from]. destruct i as [|i]; cbn [lookup list_lookup].
  - by intros [= ->].
  - intros Hi.
    change (pct_change_from v rest !! i
            = Some (pct (default previous ((v :: rest) !! i)) value)).
    rewrite (IH v i Hi). destruct i as [|i]; [done|].
    change ((v :: rest) !! S i) with (rest !! i).
    destruct (rest !! i) eqn:Ei; [done|].
    apply lookup_ge_None in Ei. apply lookup_lt_Some in Hi. lia.
Qed.

Lemma is_win_fillna (r : daily_return) :
  is_win (match r with NaN => Return 0 | _ => r end) = is_win r.
Proof. by destruct r. Qed.

Lemma returns_binary_first value rest : returns_binary (value :: rest) !! 0%nat = Some false.
Proof. done. Qed.

Lemma returns_binary_next values i previous value :
  values !! i = Some previous → values !! S i = Some value →
  returns_binary values !! S i = Some (is_win (pct previous value)).
Proof.
  intros Hp Hv. unfold returns_binary, daily_returns, fillna.
  rewrite <-list_fmap_compose, list_lookup_fmap. unfold pct_change.
  destruct values as [|v0 rest]; [done|].
  change (rest !! i = Some value) in Hv.
  change ((NaN :: pct_change_from v0 rest) !! S i) with (pct_change_from v0 rest !! i).
  rewrite (pct_change_from_lookup v0 rest i value Hv). cbn [fmap option_fmap option_map].
  unfold compose. rewrite is_win_fillna. do 3 f_equal.
  destruct i as [|i]; [by injection Hp|].
  change (rest !! i = Some previous) in Hp. by rewrite Hp.
Qed.

Lemma winning_days_le values : (winning_days values ≤ total_days values)%nat.
Proof.
  unfold winning_days, total_days. rewrite daily_returns_length.
  destruct values as [|v rest]; [cbn; lia|].
  unfold daily_returns, fillna, pct_change. cbn [fmap list_fmap].
  rewrite filter_cons_False by (cbn; tauto).
  etrans; [apply length_filter|]. rewrite length_fmap, pct_change_from_length.
  cbn [length]. lia.
Qed.

(** X18: the win rate is a percentage: between 0 and 100, because the first
    day, whose return is filled with 0, is never counted as a winning day;
    with a single row it is 0. *)
Theorem win_rate_is_a_percentage (values : list Qc) :
  values ≠ [] →
  0 ≤ win_rate values ∧ win_rate values ≤ Qc_of_Z 100 ∧
  (winning_days values < length values)%nat ∧
  (length values = 1%nat → win_rate values = 0).
Proof.
  intros Hne. pose proof (winning_days_le values) as Hle.
  assert (Hpos : (1 ≤ total_days values)%nat) by (unfold total_days; lia).
  assert (Ht : 0 < Qc_of_nat (total_days values)).
  { apply Qc_of_Z_pos. lia. }
  assert (Hw : 0 ≤ Qc_of_nat (winning_days values)).
  { apply Qc_of_Z_nonneg. lia. }
  assert (Hwt : Qc_of_nat (winning_days values) ≤ Qc_of_nat (total_days values)).
  { apply (proj1 (Z2Qc_inj_le _ _)). lia. }
  assert (Hlt : (winning_days values < length values)%nat).
  { destruct values as [|v rest]; [done|].
    unfold winning_days, daily_returns, fillna, pct_change.
    cbn [fmap list_fmap]. rewrite filter_cons_False by (cbn; tauto).
    apply Nat.le_lt_trans with (length rest); [|cbn [length]; lia].
    etrans; [apply length_filter|]. by rewrite length_fmap, pct_change_from_length. }
  unfold win_rate. split; [|split; [|split]].
  - apply Qcmult_nonneg; [by apply Qcdiv_nonneg|by apply Qc_of_Z_nonneg].
  - pose proof (Qc_percent_le _ _ (Qcdiv_le_1 _ _ Hwt Ht)) as H.
    by replace (1 * Qc_of_Z 100) with (Qc_of_Z 100) in H by ring.
  - exact Hlt.
  - intros Hone. replace (winning_days values) with 0%nat by lia.
    change (Qc_of_nat 0) with (Qc_of_Z 0). rewrite Z2Qc_inj_0. unfold Qcdiv. ring.
Qed.

(** X19: which days count as winning days: never the first; a later day
    when its value is above a positive value of the day before, below a
    negative one, or positive after a zero one. *)
Theorem winning_day_characterisation (values : list Qc) (i : nat) (previous value : Qc) :
  values !! i = Some previous → values !! S i = Some value →
  returns_binary values !! 0%nat = Some false ∧
  ∃ win, returns_binary values !! S i = Some win ∧
    (win = true ↔
       (0 < previous ∧ previous < value) ∨
       (previous < 0 ∧ value < previous) ∨
       (previous = 0 ∧ 0 < value)).
Proof.
  intros Hp Hv. split.
  - destruct values as [|v rest]; [done|]. apply returns_binary_first.
  - exists (is_win (pct previous value)). split; [by apply returns_binary_next|].
    apply is_win_pct.
Qed.

(** *** Streaks *)

Lemma max_len_cons key k n groups :
  max_len key ((k, n) :: groups)
  = if decide (k = key) then Nat.max n (max_len key groups) else max_len key groups.
Proof.
  unfold max_len. rewrite filter_cons. cbn [fst]. by destruct (decide (k = key)).
Qed.

Lemma groupby_nil keys : groupby keys = [] → keys = [].
Proof.
  destruct keys as [|k rest]; [done|]. cbn [groupby].
  destruct (groupby rest) as [|[k' n] groups]; [done|]. by destruct (decide (k = k')).
Qed.

Lemma groupby_head keys k n groups :
  groupby keys = (k, n) :: groups → ∃ rest, keys = (replicate n k ++ rest)%list.
Proof.
  revert k n groups. induction keys as [|x keys IH]; intros k n groups; [done|].
  cbn [groupby]. destruct (groupby keys) as [|[k' n'] groups'] eqn:E.
  - apply groupby_nil in E as ->. intros [= <- <- <-]. by exists [].
  - destruct (IH _ _ _ eq_refl) as (rest & ->).
    destruct (decide (x = k')) as [->|Hne]; intros [= <- <- <-].
    + by exists rest.
    + by exists (replicate n' k' ++ rest)%list.
Qed.

Lemma groupby_replicate key n rest :
  ∃ m groups, groupby (replicate (S n) key ++ rest)%list = (key, m) :: groups ∧ (S n ≤ m)%nat.
Proof.
  induction n as [|n (m & groups & E & Hm)].
  - cbn [replicate app groupby]. destruct (groupby rest) as [|[k' n'] groups].
    + exists 1%nat, []. by split.
    + destruct (decide (key = k')).
      * exists (S n'), groups. split; [done|lia].
      * exists 1%nat, ((k', n') :: groups). by split.
  - change (replicate (S (S n)) key ++ rest)%list
      with (key :: (replicate (S n) key ++ rest))%list.
    cbn [groupby]. rewrite E. rewrite decide_True by done.
    exists (S m), groups. split; [done|lia].
Qed.

Lemma max_len_groupby_cons key k keys :
  (max_len key (groupby keys) ≤ max_len key (groupby (k :: keys)))%nat.
Proof.
  cbn [groupby]. destruct (groupby keys) as [|[k' n] groups]; [unfold max_len at 1; cbn; lia|].
  destruct (decide (k = k')) as [->|Hne]; rewrite !max_len_cons.
  - destruct (decide (k' = key)); lia.
  - destruct (decide (k = key)), (decide (k' = key)); lia.
Qed.

Lemma max_len_bounds_runs key keys before after n :
  keys = (before ++ replicate n key ++ after)%list →
  (n ≤ max_len key (groupby keys))%nat.
Proof.
  revert keys. induction before as [|x before IH]; intros keys ->.
  - destruct n as [|n]; [lia|]. cbn [app].
    destruct (groupby_replicate key n after) as (m & groups & -> & Hm).
    rewrite max_len_cons, decide_True by done. lia.
  - etrans; [by apply (IH _ eq_refl)|]. apply max_len_groupby_cons.
Qed.

Lemma max_len_is_a_run key keys :
  ∃ before after,
    keys = (before ++ replicate (max_len key (groupby keys)) key ++ after)%list.
Proof.
  induction keys as [|k keys (before & after & IH)]; [by exists [], []|].
  cbn [groupby]. destruct (groupby keys) as [|[k' n] groups] eqn:E.
  - apply groupby_nil in E as ->. rewrite max_len_cons.
    destruct (decide (k = key)) as [->|Hne].
    + exists [], []. by cbn.
    + exists [], [k]. by cbn.
  - destruct (decide (k = k')) as [<-|Hkk].
    + rewrite max_len_cons in IH |- *. destruct (decide (k = key)) as [->|Hne].
      * destruct (decide (S n ≤ max_len key groups)%nat) as [Hle|Hgt].
        -- exists (key :: before), after.
           rewrite Nat.max_r in IH |- * by lia. cbn [app]. by f_equal.
        -- destruct (groupby_head _ _ _ _ E) as (rest & Hrest).
           exists [], rest. rewrite Nat.max_l by lia. by rewrite Hrest.
      * exists (k :: before), after. cbn [app]. by f_equal.
    + rewrite max_len_cons. destruct (decide (k = key)) as [->|Hne].
      * destruct (decide (1 ≤ max_len key ((k', n) :: groups))%nat) as [Hle|Hgt].
        -- exists (key :: before), after. rewrite Nat.max_r by lia. cbn [app]. by f_equal.
        -- exists [], keys. rewrite Nat.max_l by lia. done.
      * exists (k :: before), after. cbn [app]. by f_equal.
Qed.

(** X20: the streak counts are the lengths of the longest blocks of
    consecutive winning days and of consecutive other days: some block has
    that length and no block is longer.  With any data the longest losing
    or flat streak is at least one day, the first. *)
Theorem streaks_are_the_longest_runs (values : list Qc) :
  let days := returns_binary values in
  let streak (win : bool) :=
    if win then max_consecutive_wins values else max_consecutive_losses values in
  (∀ win, ∃ before after, days = (before ++ replicate (streak win) win ++ after)%list) ∧
  (∀ win before after n,
     days = (before ++ replicate n win ++ after)%list → (n ≤ streak win)%nat) ∧
  (values ≠ [] → (1 ≤ max_consecutive_losses values)%nat) ∧
  (max_consecutive_wins values < Nat.max (length values) 1)%nat.
Proof.
  intros days streak.
  assert (Hs : ∀ win, streak win = max_len win (groupby days)).
  { intros win. subst streak. cbv beta. unfold max_consecutive_wins, max_consecutive_losses.
    fold days. destruct (decide (0 < length days)%nat) as [|Hz]; [by destruct win|].
    destruct days; [by destruct win|cbn [length] in Hz; lia]. }
  assert (Hmax : ∀ win before after n,
             days = (before ++ replicate n win ++ after)%list → (n ≤ streak win)%nat).
  { intros win before after n E. rewrite Hs. by eapply max_len_bounds_runs. }
  split; [|split; [|split]].
  - intros win. rewrite Hs. apply max_len_is_a_run.
  - exact Hmax.
  - intros Hne. apply (Hmax false [] (tail days) 1%nat).
    subst days. by destruct values.
  - destruct (max_len_is_a_run true days) as (before & after & E).
    rewrite <-(Hs true) in E. cbn [streak] in E. subst days.
    destruct values as [|v rest]; [vm_compute; lia|].
    assert (Hlen : length (returns_binary (v :: rest)) = S (length rest)).
    { unfold returns_binary. by rewrite length_fmap, daily_returns_length. }
    destruct before as [|b before].
    + destruct (max_consecutive_wins (v :: rest)) as [|n]; [cbn [length]; lia|].
      exfalso. pose proof (returns_binary_first v rest) as H0. by rewrite E in H0.
    + rewrite E in Hlen. rewrite !length_app, length_replicate in Hlen.
      cbn [length] in *. lia.
Qed.
(** ** The request loop *)

(** The loop entered at attempt [s] with [r] retries left: it stops at the
    first attempt from [s] on that is not answered with status 429, or at
    the last one. *)
Lemma request_loop_outcome (server : nat → Response) (max_retries : Z) (r s : nat)
    (delays : list Z) :
  Z.of_nat (s + r) = max_retries →
  ∃ k : nat,
    (s ≤ k ≤ s + r)%nat ∧
    (∀ i, (s ≤ i < k)%nat → status_code (server i) = 429%Z) ∧
    (status_code (server k) ≠ 429%Z ∨ k = (s + r)%nat) ∧
    request_loop server max_retries (seqZ (Z.of_nat s) (Z.of_nat r + 1)) s delays
    = mkExchange (Some (server k)) (S k)
        (delays ++ ((λ attempt, 60 + 30 * attempt)%Z <$>
                      seqZ (Z.of_nat s) (Z.of_nat (k - s))))%list.
Proof.
  revert s delays. induction r as [|r IH]; intros s delays Hmax.
  - exists s. split; [lia|]. split; [intros; lia|]. split; [right; lia|].
    rewrite seqZ_cons by lia. rewrite (seqZ_nil _ (Z.pred _)) by lia.
    cbn [request_loop]. rewrite decide_False by lia.
    rewrite Nat.sub_diag. cbn. by rewrite app_nil_r.
  - rewrite seqZ_cons by lia. cbn [request_loop].
    destruct (decide (status_code (server s) = 429%Z ∧ (Z.of_nat s < max_retries)%Z))
      as [[H429 _]|Hn].
    + destruct (IH (S s) (delays ++ [(60 + 30 * Z.of_nat s)%Z])%list) as (k & Hk & Hall & Hlast & E);
        [lia|].
      exists k. split; [lia|]. split; [|split].
      * intros i Hi. destruct (decide (i = s)) as [->|]; [done|]. apply Hall. lia.
      * destruct Hlast as [Hlast | ->]; [by left|right; lia].
      * replace (Z.succ (Z.of_nat s)) with (Z.of_nat (S s)) by lia.
        replace (Z.pred (Z.of_nat (S r) + 1)) with (Z.of_nat r + 1)%Z by lia.
        rewrite E. f_equal. rewrite <-app_assoc. f_equal.
        rewrite (seqZ_cons (Z.of_nat s)) by lia. cbn [fmap list_fmap app]. do 2 f_equal.
        f_equal; lia.
    + exists s. split; [lia|]. split; [intros; lia|]. split.
      * left. intros H429. apply Hn. split; [done|lia].
      * rewrite Nat.sub_diag. cbn. by rewrite app_nil_r.
Qed.

(** X21: with a non-negative retry count the call always returns a
    response: that of the first request not answered with status 429, or of
    request number [max_retries] when all before it were; it sends no more
    than [max_retries + 1] requests, and before the retry of attempt [i] it
    sleeps [60 + 30 * i] seconds. *)
Theorem api_request_retries_while_rate_limited (server : nat → Response)
    (max_retries : Z) :
  (0 ≤ max_retries)%Z →
  ∃ k : nat,
    (Z.of_nat k ≤ max_retries)%Z ∧
    (∀ i, (i < k)%nat → status_code (server i) = 429%Z) ∧
    (status_code (server k) ≠ 429%Z ∨ Z.of_nat k = max_retries) ∧
    _make_api_request server max_retries
    = mkExchange (Some (server k)) (S k)
        ((λ attempt, 60 + 30 * attempt)%Z <$> seqZ 0 (Z.of_nat k)).
Proof.
  intros Hmax.
  destruct (request_loop_outcome server max_retries (Z.to_nat max_retries) 0 [])
    as (k & Hk & Hall & Hlast & E); [lia|].
  exists k. split; [lia|]. split; [|split].
  - intros i Hi. apply Hall. lia.
  - destruct Hlast as [Hlast | ->]; [by left|right; lia].
  - unfold _make_api_request.
    replace (max_retries + 1)%Z with (Z.of_nat (Z.to_nat max_retries) + 1)%Z by lia.
    change 0%Z with (Z.of_nat 0) at 1. rewrite E. cbn [app]. by rewrite Nat.sub_0_r.
Qed.

(** X22: with a negative retry count the loop has no attempt: the call
    sends no request, does not sleep, and returns [None]. *)
Theorem api_request_without_attempts (server : nat → Response) (max_retries : Z) :
  (max_retries < 0)%Z →
  _make_api_request server max_retries = mkExchange None 0 [].
Proof.
  intros Hneg. unfold _make_api_request. by rewrite seqZ_nil by lia.
Qed.
(** ** The statements on the sample series and server *)

Example drawdown_of_the_sample :
  _update_max_drawdown demo_values = (Qc_of_Z (-25), Some "2024-01-03").
Proof. compute_done. Qed.

Example day_statistics_of_the_sample :
  returns_binary demo_values.*2 = [false; true; false; true] ∧
  win_rate demo_values.*2 = Qc_of_Z 200 / Qc_of_Z 3 ∧
  max_consecutive_wins demo_values.*2 = 1%nat ∧
  max_consecutive_losses demo_values.*2 = 1%nat.
Proof. compute_done. Qed.

Example requests_to_the_sample_server :
  _make_api_request demo_server 3 = mkExchange (Some (mkResponse 200 "ok")) 3 [60; 90]%Z ∧
  _make_api_request demo_server 1
  = mkExchange (Some (mkResponse 429 "slow down")) 2 [60%Z].
Proof. compute_done. Qed.


Lemma max_drawdown_date_is_the_first_deepest_day_witness :
  (_update_max_drawdown demo_values).1 < 0.
Proof.
  destruct (max_drawdown_date_is_the_first_deepest_day demo_values) as (_ & _ & H);
    [compute_done|].
  destruct (H "2024-01-03") as [Hneg _]; [compute_done|exact Hneg].
Defined.

Lemma win_rate_is_a_percentage_witness :
  0 ≤ win_rate demo_values.*2 ∧ win_rate demo_values.*2 ≤ Qc_of_Z 100.
Proof.
  destruct (win_rate_is_a_percentage demo_values.*2) as (H0 & H100 & _); [done|by split].
Defined.

Lemma winning_day_characterisation_witness :
  returns_binary demo_values.*2 !! 2%nat = Some false.
Proof.
  destruct (winning_day_characterisation demo_values.*2 1 (Qc_of_Z 120) (Qc_of_Z 90))
    as (_ & win & Hwin & Hiff); [reflexivity|reflexivity|].
  rewrite Hwin. f_equal. destruct win; [|done]. exfalso.
  destruct (proj1 Hiff eq_refl) as [[_ H]|[[H _]|[H _]]]; revert H; compute_done.
Defined.

Lemma api_request_retries_while_rate_limited_witness :
  ∃ k : nat,
    (Z.of_nat k ≤ 3)%Z ∧
    (∀ i, (i < k)%nat → status_code (demo_server i) = 429%Z) ∧
    (status_code (demo_server k) ≠ 429%Z ∨ Z.of_nat k = 3%Z) ∧
    _make_api_request demo_server 3
    = mkExchange (Some (demo_server k)) (S k)
        ((λ attempt, 60 + 30 * attempt)%Z <$> seqZ 0 (Z.of_nat k)).
Proof. apply (api_request_retries_while_rate_limited demo_server 3). lia. Defined.

Lemma api_request_without_attempts_witness :
  _make_api_request demo_server (-1) = mkExchange None 0 [].
Proof. apply (api_request_without_attempts demo_server (-1)). lia. Defined.
